(** * A 16x16 Sudoku (hexadoku) solver with the MRV heuristic

    Shallow embedding of [solver.py] and the properties of its three
    functions [get_valid_candidates], [find_mrv_cell] and [solve_sudoku].

    - A board is a Python list of lists of strings: [list (list string)].
    - Reading [board[r][c]] out of range raises [IndexError]; reads and
      writes therefore live in a small error monad [result].
    - Python sets of strings are [gset string]; [len] is [size],
      [SYMBOLS - used] is set difference and [sorted] is a sort for the
      code-point order on strings.
    - [solve_sudoku] mutates the board in place and bumps the global counter
      [recursive_calls]; both are threaded explicitly through [state].
    - The recursion of [solve_sudoku] is driven by a fuel parameter; the
      entry point supplies one unit more than the number of empty cells. *)

From Stdlib Require Import Ascii.
From stdpp Require Import base gmap sets list strings sorting.

Local Open Scope string_scope.
Local Open Scope list_scope.
Local Open Scope nat_scope.

(** ** Type aliases and constants *)

Abbreviation Board := (list (list string)).
Abbreviation Position := (nat * nat)%type.

Definition GRID_SIZE : nat := 16.
Definition SUBGRID_SIZE : nat := 4.
Definition EMPTY_CELL : string := "_".

Definition SYMBOLS_list : list string :=
  ["0"; "1"; "2"; "3"; "4"; "5"; "6"; "7";
   "8"; "9"; "A"; "B"; "C"; "D"; "E"; "F"].

Definition SYMBOLS : gset string := list_to_set SYMBOLS_list.

(** ** Errors *)

Inductive result (A : Type) : Type :=
  | Ok (a : A)
  | IndexError
  | OutOfFuel.

Arguments Ok {A} a.
Arguments IndexError {A}.
Arguments OutOfFuel {A}.

#[global] Instance result_ret : MRet result := λ A a, Ok a.

#[global] Instance result_bind : MBind result := λ A B k m,
  match m with
  | Ok a => k a
  | IndexError => IndexError
  | OutOfFuel => OutOfFuel
  end.

(** ** Board access *)

(** [board[row]] *)
Definition get_row (board : Board) (row : nat) : result (list string) :=
  match board !! row with
  | Some rw => Ok rw
  | None => IndexError
  end.

(** [board[row][col]] *)
Definition get_cell (board : Board) (row col : nat) : result string :=
  rw ← get_row board row;
  match rw !! col with
  | Some v => Ok v
  | None => IndexError
  end.

(** [board[row][col] = value] *)
Definition set_cell (board : Board) (row col : nat) (value : string)
  : result Board :=
  rw ← get_row board row;
  if decide (col < length rw)
  then Ok (<[row := <[col := value]> rw]> board)
  else IndexError.

(** [for x in xs: body], the loop state threaded through [body]. *)
Fixpoint for_each {S : Type} (xs : list nat) (body : nat → S → result S)
  (s : S) : result S :=
  match xs with
  | [] => Ok s
  | x :: xs' => s' ← body x s; for_each xs' body s'
  end.

(** [range(start, start + len)] *)
Definition range (start len : nat) : list nat := seq start len.

(** ** Candidate engine *)

Definition get_valid_candidates (board : Board) (row col : nat)
  : result (gset string) :=
  let used_symbols : gset string := ∅ in
  (* Row constraint *)
  rw ← get_row board row;
  let used_symbols := used_symbols ∪ list_to_set rw in
  (* Column constraint *)
  used_symbols ← for_each (range 0 GRID_SIZE)
    (λ r used, v ← get_cell board r col; Ok (used ∪ {[ v ]}))
    used_symbols;
  (* Subgrid constraint *)
  let start_row := (row / SUBGRID_SIZE) * SUBGRID_SIZE in
  let start_col := (col / SUBGRID_SIZE) * SUBGRID_SIZE in
  used_symbols ← for_each (range start_row SUBGRID_SIZE)
    (λ r used,
       for_each (range start_col SUBGRID_SIZE)
         (λ c used, v ← get_cell board r c; Ok (used ∪ {[ v ]}))
         used)
    used_symbols;
  (* Valid candidates are those not already used *)
  Ok (SYMBOLS ∖ used_symbols).

(** ** MRV heuristic *)

Abbreviation Cell := (nat * nat * gset string)%type.

(** The two loop variables of [find_mrv_cell]: [best_cell] and
    [smallest_domain_size]; [None] in the second stands for
    [float("inf")]. *)
Abbreviation ScanState := (option Cell * option nat)%type.

(** What one iteration of the scan does to the enclosing function: leave it
    with a [return], or go on with the next iteration. *)
Inductive Control : Type :=
  | Return (r : option Cell)
  | Continue (st : ScanState).

(** [n < smallest_domain_size] *)
Definition lt_domain_size (n : nat) (smallest : option nat) : bool :=
  match smallest with
  | None => true
  | Some m => bool_decide (n < m)
  end.

(** The body of the inner loop. *)
Definition scan_cell (board : Board) (row col : nat) (st : ScanState)
  : result Control :=
  v ← get_cell board row col;
  if decide (v = EMPTY_CELL) then
    candidates ← get_valid_candidates board row col;
    (* Forward checking: no valid assignments -> dead end *)
    if decide (size candidates = 0) then Ok (Return None)
    else if lt_domain_size (size candidates) st.2 then
      let smallest_domain_size := size candidates in
      let best_cell := (row, col, candidates) in
      (* Cannot do better than one candidate *)
      if decide (smallest_domain_size = 1) then Ok (Return (Some best_cell))
      else Ok (Continue (Some best_cell, Some smallest_domain_size))
    else Ok (Continue st)
  else Ok (Continue st).

(** [for col in ...] *)
Fixpoint scan_cols (board : Board) (row : nat) (cols : list nat)
  (st : ScanState) : result Control :=
  match cols with
  | [] => Ok (Continue st)
  | col :: cols' =>
      r ← scan_cell board row col st;
      match r with
      | Return x => Ok (Return x)
      | Continue st' => scan_cols board row cols' st'
      end
  end.

(** [for row in ...] *)
Fixpoint scan_rows (board : Board) (rows : list nat) (st : ScanState)
  : result Control :=
  match rows with
  | [] => Ok (Continue st)
  | row :: rows' =>
      r ← scan_cols board row (range 0 GRID_SIZE) st;
      match r with
      | Return x => Ok (Return x)
      | Continue st' => scan_rows board rows' st'
      end
  end.

Definition find_mrv_cell (board : Board) : result (option Cell) :=
  r ← scan_rows board (range 0 GRID_SIZE) (None, None);
  match r with
  | Return x => Ok x
  | Continue st => Ok st.1
  end.

(** ** Solver *)

(** The mutable world of [solve_sudoku]: the board, shared by every frame of
    the recursion, and the global counter. *)
Record state : Type := State {
  board : Board;
  recursive_calls : nat
}.

(** [sorted(candidates)]: ascending in the code-point order of strings. *)
Definition sorted (candidates : gset string) : list string :=
  merge_sort String.le (elements candidates).

(** The loop [for symbol in sorted(candidates)] of [solve_sudoku]; [rec] is
    the recursive call. *)
Fixpoint try_candidates (rec : state → result (bool * state))
  (row col : nat) (symbols : list string) (st : state)
  : result (bool * state) :=
  match symbols with
  | [] => Ok (false, st)
  | symbol :: symbols' =>
      b1 ← set_cell (board st) row col symbol;
      '(solved, st2) ← rec (State b1 (recursive_calls st));
      if solved : bool then Ok (true, st2)
      else
        (* Backtrack *)
        b3 ← set_cell (board st2) row col EMPTY_CELL;
        try_candidates rec row col symbols' (State b3 (recursive_calls st2))
  end.

Fixpoint solve_fuel (fuel : nat) (st : state) : result (bool * state) :=
  match fuel with
  | 0 => OutOfFuel
  | S fuel' =>
      let st := State (board st) (recursive_calls st + 1) in
      mrv_result ← find_mrv_cell (board st);
      match mrv_result with
      | None =>
          (* No empty cells remain - puzzle solved *)
          Ok (true, st)
      | Some (row, col, candidates) =>
          try_candidates (solve_fuel fuel') row col (sorted candidates) st
      end
  end.

(** Number of cells holding the empty sentinel. *)
Definition count_empty (b : Board) : nat :=
  length (filter (λ v, v = EMPTY_CELL) (concat b)).

Definition solve_sudoku (st : state) : result (bool * state) :=
  solve_fuel (S (count_empty (board st))) st.

(** ** Boards written as text *)

(** One cell per character. *)
Fixpoint row_of_string (s : string) : list string :=
  match s with
  | EmptyString => []
  | String a s' => String a EmptyString :: row_of_string s'
  end.

Definition board_of_strings (rows : list string) : Board :=
  row_of_string <$> rows.

(** ** Vocabulary of the specification *)

(** Sixteen rows of sixteen cells. *)
Definition grid_16x16 (b : Board) : Prop :=
  length b = GRID_SIZE ∧ Forall (λ rw, length rw = GRID_SIZE) b.

(** A grid whose cells hold a symbol of the alphabet or the sentinel. *)
Definition well_formed (b : Board) : Prop :=
  grid_16x16 b ∧
  Forall (Forall (λ v, v ∈ SYMBOLS_list ∨ v = EMPTY_CELL)) b.

#[global] Instance grid_16x16_dec (b : Board) : Decision (grid_16x16 b).
Proof. unfold grid_16x16. apply _. Defined.

#[global] Instance well_formed_dec (b : Board) : Decision (well_formed b).
Proof. unfold well_formed. apply _. Defined.

(** The values found in a row, in a column and in the 4x4 block around a
    cell, as the reader of the board sees them. *)
Definition in_row (b : Board) (row : nat) (s : string) : Prop :=
  ∃ c, get_cell b row c = Ok s.

Definition in_col (b : Board) (col : nat) (s : string) : Prop :=
  ∃ r, r < GRID_SIZE ∧ get_cell b r col = Ok s.

Definition in_block (b : Board) (row col : nat) (s : string) : Prop :=
  ∃ r c,
    row / 4 * 4 ≤ r < row / 4 * 4 + 4 ∧
    col / 4 * 4 ≤ c < col / 4 * 4 + 4 ∧
    get_cell b r c = Ok s.

(** Row-major order on positions: row outer, column inner. *)
Definition before (p q : Position) : Prop :=
  p.1 < q.1 ∨ (p.1 = q.1 ∧ p.2 < q.2).

(** The value of a cell, the sentinel outside of the board. *)
Definition sym_at (b : Board) (p : Position) : string :=
  default EMPTY_CELL (b !! p.1 ≫= (.!! p.2)).

(** ** The scan, cell by cell *)

(** The scan as one loop over a list of positions. *)
Fixpoint scan_list (b : Board) (cells : list Position) (st : ScanState)
  : result Control :=
  match cells with
  | [] => Ok (Continue st)
  | p :: cells' =>
      r ← scan_cell b p.1 p.2 st;
      match r with
      | Return x => Ok (Return x)
      | Continue st' => scan_list b cells' st'
      end
  end.

(** The positions visited by the two nested loops, in the order of the
    visits. *)
Definition cells_of (rows cols : list nat) : list Position :=
  r ← rows; (λ c, (r, c)) <$> cols.

Definition all_cells : list Position :=
  cells_of (range 0 GRID_SIZE) (range 0 GRID_SIZE).

Definition in_grid (p : Position) : Prop :=
  p.1 < GRID_SIZE ∧ p.2 < GRID_SIZE.

(** An empty cell together with its candidate set. *)
Definition is_open (b : Board) (p : Position) (cands : gset string) : Prop :=
  get_cell b p.1 p.2 = Ok EMPTY_CELL ∧
  get_valid_candidates b p.1 p.2 = Ok cands.

#[global] Instance before_dec : RelDecision before.
Proof. intros p q. unfold before. apply _. Defined.

#[global] Instance in_grid_dec (p : Position) : Decision (in_grid p).
Proof. unfold in_grid. apply _. Defined.

(** What the loop variables hold after the cells [pre] were scanned without
    leaving the loop: every empty cell seen has at least two candidates, and
    [best_cell] is the first of the empty cells seen that has the fewest. *)
Definition scan_inv (b : Board) (pre : list Position) (st : ScanState)
  : Prop :=
  (∀ q T, q ∈ pre → is_open b q T → 2 ≤ size T) ∧
  match st with
  | (None, None) => ∀ q, q ∈ pre → get_cell b q.1 q.2 ≠ Ok EMPTY_CELL
  | (Some (r, c, C), Some n) =>
      n = size C ∧ is_open b (r, c) C ∧
      ∃ l1 l2, pre = l1 ++ (r, c) :: l2 ∧
        (∀ q T, q ∈ l1 → is_open b q T → size C < size T) ∧
        (∀ q T, q ∈ l2 → is_open b q T → size C ≤ size T)
  | _ => False
  end.

(** What is known when the scan of [cells] ends with [res]. *)
Definition scan_post (b : Board) (cells : list Position) (res : Control)
  : Prop :=
  match res with
  | Continue st => scan_inv b cells st
  | Return None =>
      ∃ l1 p l2 T, cells = l1 ++ p :: l2 ∧ is_open b p T ∧ size T = 0 ∧
        (∀ q T', q ∈ l1 → is_open b q T' → 2 ≤ size T')
  | Return (Some (r, c, C)) =>
      ∃ l1 l2, cells = l1 ++ (r, c) :: l2 ∧ is_open b (r, c) C ∧ size C = 1 ∧
        (∀ q T', q ∈ l1 → is_open b q T' → 2 ≤ size T')
  end.

(** ** Solutions *)

(** The sixteen rows, sixteen columns and sixteen blocks of the grid. *)
Definition row_cells (r : nat) : list Position :=
  (λ c, (r, c)) <$> range 0 GRID_SIZE.

Definition col_cells (c : nat) : list Position :=
  (λ r, (r, c)) <$> range 0 GRID_SIZE.

Definition block_cells (r c : nat) : list Position :=
  cells_of (range (r / 4 * 4) 4) (range (c / 4 * 4) 4).

Definition groups : list (list Position) :=
  (row_cells <$> range 0 GRID_SIZE) ++
  (col_cells <$> range 0 GRID_SIZE) ++
  ((λ p, block_cells p.1 p.2) <$> cells_of [0; 4; 8; 12] [0; 4; 8; 12]).

(** The cells of [g] hold all 16 symbols, each exactly once. *)
Definition all_once (b : Board) (g : list Position) : Prop :=
  sym_at b <$> g ≡ₚ SYMBOLS_list.

Definition valid_solution (b : Board) : Prop := Forall (all_once b) groups.

(** Two cells of one row, one column or one block. *)
Definition same_group (p q : Position) : Prop :=
  p.1 = q.1 ∨ p.2 = q.2 ∨ (p.1 / 4 = q.1 / 4 ∧ p.2 / 4 = q.2 / 4).

(** The filled cells are mutually consistent: no symbol stands twice in a
    row, a column or a block. *)
Definition consistent (b : Board) : Prop :=
  ∀ p q, in_grid p → in_grid q → p ≠ q → same_group p q →
         sym_at b p = sym_at b q → sym_at b p = EMPTY_CELL.

(** [b'] keeps every filled cell of [b]. *)
Definition extends (b b' : Board) : Prop :=
  ∀ p, in_grid p → sym_at b p ≠ EMPTY_CELL → sym_at b' p = sym_at b p.

(** A complete valid assignment is reachable from [b]. *)
Definition solvable (b : Board) : Prop :=
  ∃ b', well_formed b' ∧ extends b b' ∧ valid_solution b'.

#[global] Instance same_group_dec : RelDecision same_group.
Proof. intros p q. unfold same_group. apply _. Defined.

#[global] Instance all_once_dec (b : Board) (g : list Position)
  : Decision (all_once b g).
Proof. unfold all_once. apply _. Defined.

#[global] Instance valid_solution_dec (b : Board)
  : Decision (valid_solution b).
Proof. unfold valid_solution. apply _. Defined.

(** What makes a list of positions a group. *)
Definition is_group (g : list Position) : Prop :=
  NoDup g ∧ length g = GRID_SIZE ∧ Forall in_grid g ∧
  Forall (λ p, Forall (same_group p) g) g.

#[global] Instance is_group_dec (g : list Position) : Decision (is_group g).
Proof. unfold is_group. apply _. Defined.

(** ** Concrete boards *)

Definition blank_row : string := "________________".

(** Row 0 lacks E and F; F already stands in the columns of both of its
    empty cells. *)
Definition two_cells_one_symbol : Board :=
  board_of_strings
    ["0123456789ABCD__"; blank_row; blank_row; blank_row;
     blank_row; "______________F_"; "_______________F"; blank_row;
     blank_row; blank_row; blank_row; blank_row;
     blank_row; blank_row; blank_row; blank_row].

Definition two_cells_one_symbol_after : Board :=
  board_of_strings
    ["0123456789ABCDE_"; blank_row; blank_row; blank_row;
     blank_row; "______________F_"; "_______________F"; blank_row;
     blank_row; blank_row; blank_row; blank_row;
     blank_row; blank_row; blank_row; blank_row].

(** The last cell of row 0 is empty; its row holds 0 to E and its column
    holds F. *)
Definition dead_end_board : Board :=
  board_of_strings
    ["0123456789ABCDE_"; "_______________F"; blank_row; blank_row;
     blank_row; blank_row; blank_row; blank_row;
     blank_row; blank_row; blank_row; blank_row;
     blank_row; blank_row; blank_row; blank_row].

(** A complete board that is no solution. *)
Definition all_zeros : Board := replicate GRID_SIZE (replicate GRID_SIZE "0").

(** A solution of the empty grid. *)
Definition solved_grid : Board :=
  board_of_strings
    ["0123456789ABCDEF"; "4567CDEF012389AB"; "89AB0123CDEF4567";
     "CDEF89AB45670123"; "13027894DAB5FEC6"; "EABDF3051C467289";
     "6CF8DA1E729053B4"; "749526BCEF38A01D"; "20715486A3FC9BDE";
     "B63CAED028791F45"; "DF893BC1540E267A"; "5E4A97F26B1D380C";
     "3750B24A96D1ECF8"; "92CE6F78B054DA31"; "ABD41C39FE826750";
     "F816E05D37CAB492"].

(** [solved_grid] with rows 6 and 7 cleared. *)
Definition two_rows_cleared : Board :=
  board_of_strings
    ["0123456789ABCDEF"; "4567CDEF012389AB"; "89AB0123CDEF4567";
     "CDEF89AB45670123"; "13027894DAB5FEC6"; "EABDF3051C467289";
     blank_row; blank_row; "20715486A3FC9BDE";
     "B63CAED028791F45"; "DF893BC1540E267A"; "5E4A97F26B1D380C";
     "3750B24A96D1ECF8"; "92CE6F78B054DA31"; "ABD41C39FE826750";
     "F816E05D37CAB492"].

(** [solved_grid] with rows 6 to 9 cleared. *)
Definition four_rows_cleared : Board :=
  board_of_strings
    ["0123456789ABCDEF"; "4567CDEF012389AB"; "89AB0123CDEF4567";
     "CDEF89AB45670123"; "13027894DAB5FEC6"; "EABDF3051C467289";
     blank_row; blank_row; blank_row;
     blank_row; "DF893BC1540E267A"; "5E4A97F26B1D380C";
     "3750B24A96D1ECF8"; "92CE6F78B054DA31"; "ABD41C39FE826750";
     "F816E05D37CAB492"].

(** What [solve_sudoku] leaves of [four_rows_cleared]. *)
Definition four_rows_cleared_after : Board :=
  board_of_strings
    ["0123456789ABCDEF"; "4567CDEF012389AB"; "89AB0123CDEF4567";
     "CDEF89AB45670123"; "13027894DAB5FEC6"; "EABDF3051C467289";
     "64952AB_____1__D"; "7CF8____________"; blank_row;
     blank_row; "DF893BC1540E267A"; "5E4A97F26B1D380C";
     "3750B24A96D1ECF8"; "92CE6F78B054DA31"; "ABD41C39FE826750";
     "F816E05D37CAB492"].

(** ** Utility functions *)

(** The text written to the standard output stands for the effect of
    [print_board]. *)
Definition newline : string := String "010"%char "".

(** [s * n] *)
Fixpoint repeat_string (s : string) (n : nat) : string :=
  match n with
  | 0 => ""
  | S n' => s +:+ repeat_string s n'
  end.

(** The loop over [enumerate(row)], from the index [col_idx] on. *)
Fixpoint print_values (col_idx : nat) (row : list string) : string :=
  match row with
  | [] => ""
  | value :: row' =>
      (if decide (col_idx mod SUBGRID_SIZE = 0 ∧ col_idx ≠ 0)
       then "| " else "")
      +:+ value +:+ " " +:+ print_values (S col_idx) row'
  end.

(** The loop over [enumerate(board)], from the index [row_idx] on. *)
Fixpoint print_rows (row_idx : nat) (board : Board) : string :=
  match board with
  | [] => ""
  | row :: board' =>
      (if decide (row_idx mod SUBGRID_SIZE = 0 ∧ row_idx ≠ 0)
       then repeat_string "-" 41 +:+ newline else "")
      +:+ print_values 0 row +:+ newline +:+ print_rows (S row_idx) board'
  end.

Definition print_board (board : Board) : string :=
  print_rows 0 board +:+ newline.

(** ** Reading a printed board *)

(** The lines of a text. *)
Fixpoint lines (s : string) : list string :=
  match s with
  | EmptyString => [""]
  | String c s' =>
      if decide (c = "010"%char) then "" :: lines s'
      else match lines s' with
           | l :: ls => String c l :: ls
           | [] => [String c ""]
           end
  end.

(** A line of dashes. *)
Definition is_rule (l : string) : bool :=
  match l with
  | String c _ => bool_decide (c = "-"%char)
  | EmptyString => false
  end.

Fixpoint no_newline (s : string) : Prop :=
  match s with
  | EmptyString => True
  | String c s' => c ≠ "010"%char ∧ no_newline s'
  end.

(** A board that prints legibly: no row is empty and every cell is a symbol
    or the sentinel. *)
Definition plain_board (b : Board) : Prop :=
  Forall (λ rw, rw ≠ [] ∧ Forall (λ v, v ∈ SYMBOLS_list ∨ v = EMPTY_CELL) rw) b.

(** The cells of a printed row: every character but blanks and bars. *)
Fixpoint cells_of_line (l : string) : list string :=
  match l with
  | EmptyString => []
  | String c l' =>
      if decide (c = " "%char ∨ c = "|"%char) then cells_of_line l'
      else String c "" :: cells_of_line l'
  end.

Definition read_board (out : string) : Board :=
  cells_of_line <$> filter (λ l, l ≠ "" ∧ is_rule l = false) (lines out).

(** [board[r][c]] can be read. *)
Definition readable (b : Board) (r c : nat) : Prop :=
  ∃ v, get_cell b r c = Ok v.

(** The cells that [get_valid_candidates] reads. *)
Definition reads_in_range (b : Board) (row col : nat) : Prop :=
  row < length b ∧
  (∀ r, r < GRID_SIZE → readable b r col) ∧
  (∀ r c, row / 4 * 4 ≤ r < row / 4 * 4 + 4 →
          col / 4 * 4 ≤ c < col / 4 * 4 + 4 → readable b r c).

(** ** The solver, one invocation at a time *)

(** The body of [solve_sudoku], with [rec] for the recursive call. *)
Definition solve_sudoku_body (rec : state → result (bool * state))
  (st : state) : result (bool * state) :=
  let st := State (board st) (recursive_calls st + 1) in
  mrv_result ← find_mrv_cell (board st);
  match mrv_result with
  | None => Ok (true, st)
  | Some (row, col, candidates) =>
      try_candidates rec row col (sorted candidates) st
  end.

(** The number of candidates of a cell, when the cell is empty. *)
Definition open_size (b : Board) (q : Position) : option nat :=
  match get_cell b q.1 q.2, get_valid_candidates b q.1 q.2 with
  | Ok v, Ok T => if decide (v = EMPTY_CELL) then Some (size T) else None
  | _, _ => None
  end.

(** Every empty cell of the grid passes the test [R] on its position and its
    number of candidates. *)
Definition open_sizes (b : Board) (R : Position → nat → bool) : Prop :=
  Forall (λ q, from_option (R q) true (open_size b q) = true) all_cells.

#[global] Instance open_sizes_dec (b : Board) (R : Position → nat → bool)
  : Decision (open_sizes b R).
Proof. unfold open_sizes. apply _. Defined.

(** Only row 5 holds symbols: the cells of rows 0 to 3 have 15 or 16
    candidates, and (4, 0) is the first of the cells with 12. *)
Definition mrv_board : Board :=
  board_of_strings
    [blank_row; blank_row; blank_row; blank_row;
     blank_row; "0123____________"; blank_row; blank_row;
     blank_row; blank_row; blank_row; blank_row;
     blank_row; blank_row; blank_row; blank_row].

(** * Properties *)

(** ** The error monad *)

Lemma bind_Ok {A B : Type} (m : result A) (k : A → result B) (y : B) :
  m ≫= k = Ok y ↔ ∃ x, m = Ok x ∧ k x = Ok y.
Proof.
  destruct m as [a| |]; simpl; split.
  - intros H. by exists a.
  - by intros (x & [= ->] & H).
  - done.
  - by intros (x & ? & _).
  - done.
  - by intros (x & ? & _).
Qed.

Lemma Ok_bind {A B : Type} (x : A) (k : A → result B) : Ok x ≫= k = k x.
Proof. done. Qed.

Ltac inv_bind H :=
  let x := fresh "x" in
  let Hx := fresh "Hx" in
  apply bind_Ok in H as (x & Hx & H).

(** ** Reading and writing cells *)

Lemma get_row_Ok (b : Board) (row : nat) (rw : list string) :
  get_row b row = Ok rw ↔ b !! row = Some rw.
Proof. unfold get_row. destruct (b !! row); naive_solver. Qed.

Lemma get_cell_Ok (b : Board) (row col : nat) (v : string) :
  get_cell b row col = Ok v ↔ ∃ rw, b !! row = Some rw ∧ rw !! col = Some v.
Proof.
  unfold get_cell. rewrite bind_Ok. setoid_rewrite get_row_Ok.
  split; intros (rw & Hrw & H); exists rw; split; try done.
  - by destruct (rw !! col) as [w|]; simplify_eq.
  - by rewrite H.
Qed.

Lemma get_cell_sym_at (b : Board) (row col : nat) (v : string) :
  get_cell b row col = Ok v → sym_at b (row, col) = v.
Proof.
  rewrite get_cell_Ok. intros (rw & Hrw & Hv).
  unfold sym_at. simpl. rewrite Hrw. simpl. by rewrite Hv.
Qed.

Lemma grid_get_row (b : Board) (row : nat) :
  grid_16x16 b → row < GRID_SIZE →
  ∃ rw, b !! row = Some rw ∧ length rw = GRID_SIZE.
Proof.
  intros [Hlen Hrows] Hrow.
  destruct (lookup_lt_is_Some_2 b row) as [rw Hrw]; [lia|].
  exists rw. split; [done|].
  by eapply (Forall_lookup_1 _ _ _ _ Hrows).
Qed.

Lemma grid_get_cell (b : Board) (row col : nat) :
  grid_16x16 b → row < GRID_SIZE → col < GRID_SIZE →
  get_cell b row col = Ok (sym_at b (row, col)).
Proof.
  intros Hg Hrow Hcol.
  destruct (grid_get_row b row Hg Hrow) as (rw & Hrw & Hlen).
  destruct (lookup_lt_is_Some_2 rw col) as [v Hv]; [lia|].
  assert (get_cell b row col = Ok v) as H by (apply get_cell_Ok; eauto).
  by rewrite (get_cell_sym_at _ _ _ _ H).
Qed.

Lemma set_cell_Ok (b b' : Board) (row col : nat) (v : string) :
  set_cell b row col v = Ok b' ↔
  ∃ rw, b !! row = Some rw ∧ col < length rw ∧
        b' = <[row := <[col := v]> rw]> b.
Proof.
  unfold set_cell. rewrite bind_Ok. setoid_rewrite get_row_Ok.
  split.
  - intros (rw & Hrw & H). exists rw. case_decide; naive_solver.
  - intros (rw & Hrw & Hc & ->). exists rw. split; [done|].
    by rewrite decide_True.
Qed.

(** A cell that can be read can be written. *)
Lemma set_cell_after_get (b : Board) (row col : nat) (v w : string) :
  get_cell b row col = Ok v → ∃ b', set_cell b row col w = Ok b'.
Proof.
  rewrite get_cell_Ok. intros (rw & Hrw & Hv).
  eexists. apply set_cell_Ok. exists rw. split_and!; [done| |done].
  by eapply lookup_lt_Some.
Qed.

Lemma get_set_cell_eq (b b' : Board) (row col : nat) (v : string) :
  set_cell b row col v = Ok b' → get_cell b' row col = Ok v.
Proof.
  rewrite set_cell_Ok. intros (rw & Hrw & Hc & ->).
  apply get_cell_Ok. exists (<[col := v]> rw). split.
  - apply list_lookup_insert_eq. by eapply lookup_lt_Some.
  - by apply list_lookup_insert_eq.
Qed.

Lemma get_set_cell_ne (b b' : Board) (row col r c : nat) (v : string) :
  set_cell b row col v = Ok b' → (r, c) ≠ (row, col) →
  get_cell b' r c = get_cell b r c.
Proof.
  rewrite set_cell_Ok. intros (rw & Hrw & Hc & ->) Hne.
  unfold get_cell, get_row.
  destruct (decide (r = row)) as [->|Hr].
  - rewrite list_lookup_insert_eq by (by eapply lookup_lt_Some).
    rewrite Hrw. simpl.
    rewrite list_lookup_insert_ne; [done|]. congruence.
  - by rewrite list_lookup_insert_ne.
Qed.

Lemma set_cell_grid (b b' : Board) (row col : nat) (v : string) :
  set_cell b row col v = Ok b' → grid_16x16 b → grid_16x16 b'.
Proof.
  rewrite set_cell_Ok. intros (rw & Hrw & Hc & ->) [Hlen Hrows].
  split.
  - by rewrite length_insert.
  - apply Forall_insert; [done|]. rewrite length_insert.
    by eapply (Forall_lookup_1 _ _ _ _ Hrows).
Qed.

(** Writing a cell and writing its former value back restores the board. *)
Lemma set_cell_reset (b b1 : Board) (row col : nat) (v0 v : string) :
  get_cell b row col = Ok v0 → set_cell b row col v = Ok b1 →
  set_cell b1 row col v0 = Ok b.
Proof.
  rewrite get_cell_Ok, !set_cell_Ok.
  intros (rw & Hrw & Hv0) (rw' & Hrw' & Hcol & ->). simplify_eq.
  exists (<[col := v]> rw). split_and!.
  - apply list_lookup_insert_eq. by eapply lookup_lt_Some.
  - by rewrite length_insert.
  - rewrite !list_insert_insert_eq.
    rewrite (list_insert_id rw col v0 Hv0). by rewrite list_insert_id.
Qed.

(** ** The candidate engine *)

(** The loops of [get_valid_candidates] all add the value read at each index
    to the set built so far. *)
Lemma for_each_add_elem (f : nat → result string) (xs : list nat)
    (used used' : gset string) :
  for_each xs (λ x used, v ← f x; Ok (used ∪ {[ v ]})) used = Ok used' →
  ∀ s, s ∈ used' ↔ s ∈ used ∨ ∃ x, x ∈ xs ∧ f x = Ok s.
Proof.
  revert used. induction xs as [|x xs IH]; intros used H s; simpl in H.
  - injection H as <-. split; [by left|]. intros [?|(x & Hx & _)]; [done|].
    by apply elem_of_nil in Hx.
  - inv_bind H. inv_bind Hx. injection Hx as <-.
    rewrite (IH _ H s), elem_of_union, elem_of_singleton.
    split.
    + intros [[?| ->]|(y & ? & ?)]; [by left| |].
      * right. exists x. split; [apply elem_of_cons; by left|done].
      * right. exists y. split; [apply elem_of_cons; by right|done].
    + intros [?|(y & [->|?]%elem_of_cons & Hy)]; [by left; left| |].
      * left. right. congruence.
      * right. by exists y.
Qed.

Lemma for_each_add_Ok (f : nat → result string) (xs : list nat)
    (used : gset string) :
  (∀ x, x ∈ xs → ∃ v, f x = Ok v) →
  ∃ used', for_each xs (λ x used, v ← f x; Ok (used ∪ {[ v ]})) used = Ok used'.
Proof.
  revert used. induction xs as [|x xs IH]; intros used H; simpl.
  - by eexists.
  - destruct (H x) as [v Hv]; [apply elem_of_cons; by left|].
    rewrite Hv. simpl.
    apply IH. intros y Hy. apply H. apply elem_of_cons. by right.
Qed.

(** The nested loop over the block. *)
Lemma for_each_block_elem (b : Board) (rows cols : list nat)
    (used used' : gset string) :
  for_each rows
    (λ r used,
       for_each cols (λ c used, v ← get_cell b r c; Ok (used ∪ {[ v ]})) used)
    used = Ok used' →
  ∀ s, s ∈ used' ↔
       s ∈ used ∨ ∃ r c, r ∈ rows ∧ c ∈ cols ∧ get_cell b r c = Ok s.
Proof.
  revert used. induction rows as [|r rows IH]; intros used H s; simpl in H.
  - injection H as <-. split; [by left|]. intros [?|(r & c & Hr & _)]; [done|].
    by apply elem_of_nil in Hr.
  - inv_bind H.
    rewrite (IH _ H s), (for_each_add_elem (get_cell b r) _ _ _ Hx s).
    split.
    + intros [[?|(c & ? & ?)]|(r' & c & ? & ? & ?)]; [by left| |].
      * right. exists r, c. split_and!; [apply elem_of_cons; by left|done..].
      * right. exists r', c. split_and!; [apply elem_of_cons; by right|done..].
    + intros [?|(r' & c & [->|?]%elem_of_cons & ? & ?)]; [by left; left| |].
      * left. right. by exists c.
      * right. by exists r', c.
Qed.

Lemma for_each_block_Ok (b : Board) (rows cols : list nat)
    (used : gset string) :
  (∀ r c, r ∈ rows → c ∈ cols → ∃ v, get_cell b r c = Ok v) →
  ∃ used',
    for_each rows
      (λ r used,
         for_each cols (λ c used, v ← get_cell b r c; Ok (used ∪ {[ v ]}))
           used)
      used = Ok used'.
Proof.
  revert used. induction rows as [|r rows IH]; intros used H; simpl.
  - by eexists.
  - destruct (for_each_add_Ok (get_cell b r) cols used) as [u Hu].
    { intros c Hc. apply H; [apply elem_of_cons; by left|done]. }
    rewrite Hu. simpl. apply IH. intros r' c Hr' Hc.
    apply H; [apply elem_of_cons; by right|done].
Qed.

Lemma elem_of_range (x start len : nat) :
  x ∈ range start len ↔ start ≤ x < start + len.
Proof. unfold range. apply elem_of_seq. Qed.

(** What a successful call of [get_valid_candidates] returns, on any
    board. *)
Lemma get_valid_candidates_elem (b : Board) (row col : nat)
    (cands : gset string) :
  get_valid_candidates b row col = Ok cands →
  ∀ s, s ∈ cands ↔
       s ∈ SYMBOLS ∧ ¬ in_row b row s ∧ ¬ in_col b col s ∧
       ¬ in_block b row col s.
Proof.
  unfold get_valid_candidates. intros H s.
  inv_bind H. rename x into rw. apply get_row_Ok in Hx.
  inv_bind H. rename x into u1, Hx0 into Hcol.
  inv_bind H. rename x into u2, Hx0 into Hblk. injection H as <-.
  pose proof (for_each_add_elem (λ r, get_cell b r col) _ _ _ Hcol) as Hu1.
  pose proof (for_each_block_elem _ _ _ _ _ Hblk) as Hu2.
  rewrite elem_of_difference, Hu2, Hu1, elem_of_union, elem_of_list_to_set.
  assert (s ∈ rw ↔ in_row b row s) as ->.
  { unfold in_row. setoid_rewrite get_cell_Ok. rewrite list_elem_of_lookup.
    split.
    - intros [c Hc]. exists c, rw. done.
    - intros (c & rw' & Hrw' & Hc). simplify_eq. by exists c. }
  assert ((∃ x, x ∈ range 0 GRID_SIZE ∧ get_cell b x col = Ok s)
          ↔ in_col b col s) as ->.
  { unfold in_col. setoid_rewrite elem_of_range.
    split; intros (r & Hr & Hs); exists r; (split; [lia|done]). }
  assert ((∃ r c, r ∈ range (row / SUBGRID_SIZE * SUBGRID_SIZE) SUBGRID_SIZE ∧
                  c ∈ range (col / SUBGRID_SIZE * SUBGRID_SIZE) SUBGRID_SIZE ∧
                  get_cell b r c = Ok s)
          ↔ in_block b row col s) as ->.
  { unfold in_block, SUBGRID_SIZE. setoid_rewrite elem_of_range. done. }
  rewrite elem_of_empty. tauto.
Qed.

Lemma block_in_grid (x r : nat) :
  x < GRID_SIZE → x / 4 * 4 ≤ r < x / 4 * 4 + 4 → r < GRID_SIZE.
Proof.
  unfold GRID_SIZE. intros Hx Hr.
  pose proof (Nat.div_mod_eq x 4). pose proof (Nat.mod_upper_bound x 4).
  lia.
Qed.

(** No [IndexError] on a 16x16 grid. *)
Lemma get_valid_candidates_Ok (b : Board) (row col : nat) :
  grid_16x16 b → row < GRID_SIZE → col < GRID_SIZE →
  ∃ cands, get_valid_candidates b row col = Ok cands.
Proof.
  intros Hg Hrow Hcol. unfold get_valid_candidates.
  destruct (grid_get_row b row Hg Hrow) as (rw & Hrw & _).
  apply get_row_Ok in Hrw. rewrite Hrw, Ok_bind.
  destruct (for_each_add_Ok (λ r, get_cell b r col) (range 0 GRID_SIZE)
              (∅ ∪ list_to_set rw)) as [u1 Hu1].
  { intros r Hr%elem_of_range. eexists. apply grid_get_cell; [done|lia|done]. }
  rewrite Hu1, Ok_bind.
  destruct (for_each_block_Ok b
              (range (row / SUBGRID_SIZE * SUBGRID_SIZE) SUBGRID_SIZE)
              (range (col / SUBGRID_SIZE * SUBGRID_SIZE) SUBGRID_SIZE) u1)
    as [u2 Hu2].
  { intros r c Hr%elem_of_range Hc%elem_of_range. eexists.
    apply grid_get_cell;
      [done|by apply (block_in_grid row)|by apply (block_in_grid col)]. }
  rewrite Hu2, Ok_bind. by eexists.
Qed.

Lemma EMPTY_CELL_not_symbol : EMPTY_CELL ∉ SYMBOLS.
Proof. by vm_compute. Qed.

Lemma get_valid_candidates_subseteq (b : Board) (row col : nat)
    (cands : gset string) :
  get_valid_candidates b row col = Ok cands → cands ⊆ SYMBOLS.
Proof.
  intros H s Hs. by apply (get_valid_candidates_elem _ _ _ _ H) in Hs as [? _].
Qed.

(** C5. On a 16x16 board and for a row and a column in range,
    [get_valid_candidates] returns (without error) exactly the symbols of the
    alphabet that occur neither in the row, nor in the column, nor in the 4x4
    block whose origin is [(row / 4 * 4, col / 4 * 4)]; the sentinel of
    empty cells is never in the result. *)
Theorem get_valid_candidates_spec (b : Board) (row col : nat) :
  grid_16x16 b → row < GRID_SIZE → col < GRID_SIZE →
  ∃ cands,
    get_valid_candidates b row col = Ok cands ∧
    (∀ s, s ∈ cands ↔
          s ∈ SYMBOLS ∧ ¬ in_row b row s ∧ ¬ in_col b col s ∧
          ¬ in_block b row col s) ∧
    EMPTY_CELL ∉ cands.
Proof.
  intros Hg Hrow Hcol.
  destruct (get_valid_candidates_Ok b row col Hg Hrow Hcol) as [cands H].
  exists cands. split_and!; [done|by apply get_valid_candidates_elem|].
  intros Hin. apply (get_valid_candidates_subseteq _ _ _ _ H) in Hin.
  by apply EMPTY_CELL_not_symbol.
Qed.

Lemma get_valid_candidates_spec_witness :
  ∃ cands,
    get_valid_candidates two_cells_one_symbol 0 14 = Ok cands ∧
    (∀ s, s ∈ cands ↔
          s ∈ SYMBOLS ∧ ¬ in_row two_cells_one_symbol 0 s ∧
          ¬ in_col two_cells_one_symbol 14 s ∧
          ¬ in_block two_cells_one_symbol 0 14 s) ∧
    EMPTY_CELL ∉ cands.
Proof.
  apply (get_valid_candidates_spec two_cells_one_symbol 0 14).
  - apply (bool_decide_unpack _). vm_compute. reflexivity.
  - unfold GRID_SIZE. lia.
  - unfold GRID_SIZE. lia.
Defined.

(** ** The MRV scan *)

Lemma scan_list_app (b : Board) (l1 l2 : list Position) (st : ScanState) :
  scan_list b (l1 ++ l2) st =
  r ← scan_list b l1 st;
  match r with
  | Return x => Ok (Return x)
  | Continue st' => scan_list b l2 st'
  end.
Proof.
  revert st. induction l1 as [|p l1 IH]; intros st; [done|].
  simpl. destruct (scan_cell b p.1 p.2 st) as [[x|st']| |]; try done.
  rewrite !Ok_bind. apply IH.
Qed.

Lemma scan_cols_list (b : Board) (row : nat) (cols : list nat)
    (st : ScanState) :
  scan_cols b row cols st = scan_list b ((λ c, (row, c)) <$> cols) st.
Proof.
  revert st. induction cols as [|c cols IH]; intros st; [done|].
  simpl. destruct (scan_cell b row c st) as [[x|st']| |]; try done.
  rewrite !Ok_bind. apply IH.
Qed.

(** The nested loops visit the cells in row-major order. *)
Lemma scan_rows_list (b : Board) (rows : list nat) (st : ScanState) :
  scan_rows b rows st = scan_list b (cells_of rows (range 0 GRID_SIZE)) st.
Proof.
  revert st. induction rows as [|r rows IH]; intros st; [done|].
  unfold cells_of. rewrite bind_cons. fold (cells_of rows (range 0 GRID_SIZE)).
  rewrite scan_list_app, <- scan_cols_list. cbn [scan_rows].
  destruct (scan_cols b r (range 0 GRID_SIZE) st) as [[x|st']| |]; try done.
  rewrite !Ok_bind. apply IH.
Qed.

Lemma find_mrv_cell_scan_list (b : Board) :
  find_mrv_cell b =
  r ← scan_list b all_cells (None, None);
  match r with
  | Return x => Ok x
  | Continue st => Ok st.1
  end.
Proof. unfold find_mrv_cell. by rewrite scan_rows_list. Qed.

Lemma elem_of_cells_of (p : Position) (rows cols : list nat) :
  p ∈ cells_of rows cols ↔ p.1 ∈ rows ∧ p.2 ∈ cols.
Proof.
  unfold cells_of. rewrite list_elem_of_bind. destruct p as [r c]. simpl.
  split.
  - intros (r' & (c' & [= -> ->] & Hc)%list_elem_of_fmap & Hr). done.
  - intros [Hr Hc]. exists r. split; [|done].
    apply list_elem_of_fmap. by exists c.
Qed.

Lemma elem_of_all_cells (p : Position) : p ∈ all_cells ↔ in_grid p.
Proof.
  unfold all_cells, in_grid. rewrite elem_of_cells_of, !elem_of_range. lia.
Qed.

Lemma all_cells_sorted : StronglySorted before all_cells.
Proof. apply (bool_decide_unpack _). by vm_compute. Qed.

Lemma before_irrefl (p : Position) : ¬ before p p.
Proof. unfold before. lia. Qed.

Lemma before_asym (p q : Position) : before p q → ¬ before q p.
Proof. unfold before. lia. Qed.

Lemma before_trichotomy (p q : Position) : before p q ∨ p = q ∨ before q p.
Proof.
  destruct p as [r c], q as [r' c']. unfold before. simpl.
  destruct (decide (r = r')) as [->|]; [|lia].
  destruct (decide (c = c')) as [->|]; [|lia].
  right. by left.
Qed.

(** Where a position sits in the scan tells what comes before and after it in
    row-major order. *)
Lemma all_cells_split (p : Position) (l1 l2 : list Position) :
  all_cells = l1 ++ p :: l2 →
  in_grid p ∧
  (∀ q, q ∈ l1 ↔ in_grid q ∧ before q p) ∧
  (∀ q, q ∈ l2 ↔ in_grid q ∧ before p q).
Proof.
  intros Hsplit. pose proof all_cells_sorted as Hs. rewrite Hsplit in Hs.
  apply StronglySorted_app in Hs as (H12 & _ & [Hp2 _]%StronglySorted_cons).
  rewrite Forall_forall in Hp2.
  assert (∀ q, in_grid q ↔ q ∈ l1 ∨ q = p ∨ q ∈ l2) as Hin.
  { intros q. rewrite <- elem_of_all_cells, Hsplit, elem_of_app, elem_of_cons.
    done. }
  assert (∀ q, q ∈ l1 → before q p) as H1.
  { intros q Hq. apply H12; [done|]. apply elem_of_cons. by left. }
  split_and!.
  - apply Hin. right. by left.
  - intros q. split.
    + intros Hq. split; [apply Hin; by left|by apply H1].
    + intros [[Hq|[->|Hq]]%Hin Hb]; [done|by apply before_irrefl in Hb|].
      apply Hp2 in Hq. by apply before_asym in Hb.
  - intros q. split.
    + intros Hq. split; [apply Hin; by right; right|by apply Hp2].
    + intros [[Hq|[->|Hq]]%Hin Hb]; [|by apply before_irrefl in Hb|done].
      apply H1 in Hq. by apply before_asym in Hb.
Qed.

Lemma is_open_fun (b : Board) (p : Position) (C T : gset string) :
  is_open b p C → is_open b p T → C = T.
Proof. intros [_ HS] [_ HT]. congruence. Qed.

(** The four ways through the body of the loop. *)
Lemma scan_cell_inv (b : Board) (row col : nat) (st : ScanState)
    (res : Control) :
  scan_cell b row col st = Ok res →
  (∃ v, get_cell b row col = Ok v ∧ v ≠ EMPTY_CELL ∧ res = Continue st) ∨
  (∃ C, is_open b (row, col) C ∧
     ((size C = 0 ∧ res = Return None) ∨
      (size C = 1 ∧ lt_domain_size 1 st.2 = true ∧
       res = Return (Some (row, col, C))) ∨
      (2 ≤ size C ∧ lt_domain_size (size C) st.2 = true ∧
       res = Continue (Some (row, col, C), Some (size C))) ∨
      (1 ≤ size C ∧ lt_domain_size (size C) st.2 = false ∧
       res = Continue st))).
Proof.
  unfold scan_cell. intros H. inv_bind H. rename x into v.
  destruct (decide (v = EMPTY_CELL)) as [->|Hv].
  - right. inv_bind H. rename x into C. exists C. split; [done|].
    destruct (decide (size C = 0)) as [H0|H0].
    { left. split; [done|congruence]. }
    destruct (lt_domain_size (size C) st.2) eqn:Hlt.
    + simpl in H. destruct (decide (size C = 1)) as [H1|H1].
      * right. left. rewrite <- H1. split_and!; [done..|congruence].
      * right. right. left. split_and!; [lia|done|congruence].
    + right. right. right. split_and!; [lia|done|congruence].
  - left. exists v. split_and!; [done..|congruence].
Qed.

(** No [IndexError] inside the grid. *)
Lemma scan_cell_Ok (b : Board) (row col : nat) (st : ScanState) :
  grid_16x16 b → row < GRID_SIZE → col < GRID_SIZE →
  ∃ res, scan_cell b row col st = Ok res.
Proof.
  intros Hg Hr Hc. unfold scan_cell.
  rewrite (grid_get_cell b row col Hg Hr Hc), Ok_bind.
  destruct (decide _); [|by eexists].
  destruct (get_valid_candidates_Ok b row col Hg Hr Hc) as [C ->].
  rewrite Ok_bind. repeat (destruct (decide _) || destruct (lt_domain_size _ _));
    by eexists.
Qed.

Lemma scan_list_Ok (b : Board) (cells : list Position) (st : ScanState) :
  grid_16x16 b → Forall in_grid cells →
  ∃ res, scan_list b cells st = Ok res.
Proof.
  intros Hg Hcells. revert st.
  induction Hcells as [|p cells [Hr Hc] _ IH]; intros st; simpl.
  - by eexists.
  - destruct (scan_cell_Ok b p.1 p.2 st Hg Hr Hc) as [[x|st'] ->];
      rewrite Ok_bind; [by eexists|apply IH].
Qed.

Lemma find_mrv_cell_Ok (b : Board) :
  grid_16x16 b → ∃ res, find_mrv_cell b = Ok res.
Proof.
  intros Hg. rewrite find_mrv_cell_scan_list.
  destruct (scan_list_Ok b all_cells (None, None) Hg) as [[x|st] ->].
  - apply Forall_forall. intros p. apply elem_of_all_cells.
  - by eexists.
  - by eexists.
Qed.

Lemma scan_inv_step (b : Board) (pre : list Position) (p : Position)
    (st : ScanState) (res : Control) :
  scan_inv b pre st → scan_cell b p.1 p.2 st = Ok res →
  scan_post b (pre ++ [p]) res.
Proof.
  intros [Hge Hst] Hcell. destruct p as [row col]. simpl in Hcell.
  apply scan_cell_inv in Hcell
    as [(v & Hv & Hne & ->)|(C & Hopen & Hcases)].
  - (* the cell is filled *)
    assert (∀ T, ¬ is_open b (row, col) T) as Hclosed.
    { intros T [HT _]. simpl in HT. congruence. }
    split.
    + intros q T [Hq| ->%list_elem_of_singleton]%elem_of_app; [by eauto|].
      intros HT. by apply Hclosed in HT.
    + destruct st as [[[[r c] C]|] [n|]]; try done.
      * destruct Hst as (Hn & HS & l1 & l2 & -> & H1 & H2).
        split_and!; [done..|]. exists l1, (l2 ++ [(row, col)]).
        split_and!; [by rewrite <- app_assoc|done|].
        intros q T [Hq| ->%list_elem_of_singleton]%elem_of_app; [by eauto|].
        intros HT. by apply Hclosed in HT.
      * intros q [Hq| ->%list_elem_of_singleton]%elem_of_app; [by eauto|].
        simpl. congruence.
  - destruct Hcases as [[H0 ->]|[(H1 & _ & ->)|[(H2 & Hlt & ->)|(H1 & Hlt & ->)]]].
    + (* dead end *)
      exists pre, (row, col), [], C. done.
    + (* a single candidate *)
      exists pre, []. done.
    + (* a new best cell *)
      split.
      * intros q T [Hq| ->%list_elem_of_singleton]%elem_of_app; [by eauto|].
        intros HT. by rewrite <- (is_open_fun _ _ _ _ Hopen HT).
      * split_and!; [done..|]. exists pre, []. split_and!; [done| |].
        -- intros q T Hq HT.
           destruct st as [[[[r c] C0]|] [n|]]; try done.
           ++ destruct Hst as (-> & HC0 & l1 & l2 & -> & Hl1 & Hl2).
              simpl in Hlt. apply bool_decide_eq_true in Hlt.
              apply elem_of_app in Hq as [Hq|[->|Hq]%elem_of_cons].
              ** specialize (Hl1 _ _ Hq HT). lia.
              ** by rewrite <- (is_open_fun _ _ _ _ HC0 HT).
              ** specialize (Hl2 _ _ Hq HT). lia.
           ++ destruct HT as [HT _]. by apply Hst in Hq.
        -- intros q T Hq. by apply elem_of_nil in Hq.
    + (* not better than the best cell *)
      destruct st as [[[[r c] C0]|] [n|]]; try done.
      destruct Hst as (-> & HC0 & l1 & l2 & -> & Hl1 & Hl2).
      simpl in Hlt. apply bool_decide_eq_false in Hlt.
      assert (2 ≤ size C0) as HC02.
      { apply (Hge (r, c)); [|done]. apply elem_of_app. right.
        apply elem_of_cons. by left. }
      split.
      * intros q T [Hq| ->%list_elem_of_singleton]%elem_of_app; [by eauto|].
        intros HT. rewrite <- (is_open_fun _ _ _ _ Hopen HT). lia.
      * split_and!; [done..|]. exists l1, (l2 ++ [(row, col)]).
        split_and!; [by rewrite <- app_assoc|done|].
        intros q T [Hq| ->%list_elem_of_singleton]%elem_of_app; [by eauto|].
        intros HT. rewrite <- (is_open_fun _ _ _ _ Hopen HT). lia.
Qed.

Lemma scan_post_return_app (b : Board) (cells rest : list Position)
    (x : option Cell) :
  scan_post b cells (Return x) → scan_post b (cells ++ rest) (Return x).
Proof.
  destruct x as [[[r c] C]|]; simpl.
  - intros (l1 & l2 & -> & H). exists l1, (l2 ++ rest).
    by rewrite <- app_assoc.
  - intros (l1 & p & l2 & T & -> & H). exists l1, p, (l2 ++ rest), T.
    by rewrite <- app_assoc.
Qed.

Lemma scan_list_post (b : Board) (cells pre : list Position)
    (st : ScanState) (res : Control) :
  scan_inv b pre st → scan_list b cells st = Ok res →
  scan_post b (pre ++ cells) res.
Proof.
  revert pre st. induction cells as [|p cells IH]; intros pre st Hinv H.
  - simpl in H. injection H as <-. by rewrite app_nil_r.
  - simpl in H. inv_bind H.
    pose proof (scan_inv_step _ _ _ _ _ Hinv Hx) as Hpost.
    replace (pre ++ p :: cells) with ((pre ++ [p]) ++ cells)
      by (by rewrite <- app_assoc).
    destruct x as [x|st'].
    + injection H as <-. by apply scan_post_return_app.
    + by apply IH with st'.
Qed.

Lemma scan_inv_nil (b : Board) : scan_inv b [] (None, None).
Proof. split; intros q; intros; by apply elem_of_nil in H. Qed.

Lemma find_mrv_cell_post (b : Board) (x : option Cell) :
  find_mrv_cell b = Ok x →
  ∃ res, scan_post b all_cells res ∧
         x = match res with Return x => x | Continue st => st.1 end.
Proof.
  rewrite find_mrv_cell_scan_list. intros H. inv_bind H. rename x0 into res.
  exists res. split.
  - by apply (scan_list_post b all_cells [] (None, None)); [apply scan_inv_nil|].
  - destruct res; congruence.
Qed.

(** The cell returned by [find_mrv_cell]. *)
Lemma find_mrv_cell_Some (b : Board) (row col : nat) (cands : gset string) :
  find_mrv_cell b = Ok (Some (row, col, cands)) →
  in_grid (row, col) ∧ is_open b (row, col) cands ∧ 1 ≤ size cands ∧
  (∀ q T, in_grid q → before q (row, col) → is_open b q T →
          size cands < size T) ∧
  (size cands ≠ 1 →
   ∀ q T, in_grid q → is_open b q T → size cands ≤ size T).
Proof.
  intros (res & Hpost & Hx)%find_mrv_cell_post.
  destruct res as [[[[r c] C]|]|[[[[r c] C]|] [n|]]];
    simpl in Hx; try discriminate; injection Hx as <- <- <-; simpl in Hpost.
  - (* left the loop at a cell with one candidate *)
    destruct Hpost as (l1 & l2 & (Hp & H1 & H2)%all_cells_split & Hopen & Hsz & Hl1).
    split_and!; [done|done|lia| |lia].
    intros q T Hq Hb HT. rewrite Hsz.
    enough (2 ≤ size T) by lia. apply (Hl1 q); [|done]. by apply H1.
  - (* the loop ran to its end *)
    destruct Hpost as (Hge & _ & Hopen & l1 & l2 & (Hp & H1 & H2)%all_cells_split
                       & Hl1 & Hl2).
    assert (2 ≤ size cands) as Hsz.
    { apply (Hge (row, col)); [|done]. by apply elem_of_all_cells. }
    split_and!; [done|done|lia| |].
    + intros q T Hq Hb HT. apply (Hl1 q); [|done]. by apply H1.
    + intros _ q T Hq HT.
      destruct (before_trichotomy q (row, col)) as [Hb|[->|Hb]].
      * enough (size cands < size T) by lia. apply (Hl1 q); [|done].
        by apply H1.
      * by rewrite (is_open_fun _ _ _ _ Hopen HT).
      * apply (Hl2 q); [|done]. by apply H2.
  - by destruct Hpost as [_ ?].
Qed.

(** [find_mrv_cell] returns [None] in two situations: no cell of the grid
    is empty, or the scan met an empty cell without candidates. *)
Lemma find_mrv_cell_None (b : Board) :
  find_mrv_cell b = Ok None →
  (∀ q, in_grid q → get_cell b q.1 q.2 ≠ Ok EMPTY_CELL) ∨
  (∃ p T, in_grid p ∧ is_open b p T ∧ size T = 0 ∧
     ∀ q T', in_grid q → before q p → is_open b q T' → 2 ≤ size T').
Proof.
  intros (res & Hpost & Hx)%find_mrv_cell_post.
  destruct res as [[[[r c] C]|]|[[[[r c] C]|] [n|]]];
    simpl in Hx; simplify_eq; simpl in Hpost.
  - right.
    destruct Hpost as (l1 & p & l2 & T & (Hp & H1 & H2)%all_cells_split
                       & Hopen & Hsz & Hl1).
    exists p, T. split_and!; [done..|].
    intros q T' Hq Hb HT'. apply (Hl1 q); [|done]. by apply H1.
  - by destruct Hpost as [_ ?].
  - left. destruct Hpost as [_ Hnone]. intros q Hq. apply Hnone.
    by apply elem_of_all_cells.
Qed.

(** The scan leaves the loop at the first cell with a single candidate,
    whatever the cells after it hold. *)
Lemma find_mrv_cell_early_exit (b : Board) (row col : nat)
    (cands : gset string) :
  grid_16x16 b → in_grid (row, col) → is_open b (row, col) cands →
  size cands = 1 →
  (∀ q T, in_grid q → before q (row, col) → is_open b q T → 2 ≤ size T) →
  find_mrv_cell b = Ok (Some (row, col, cands)).
Proof.
  intros Hg Hp Hopen Hsz Hbefore.
  destruct (find_mrv_cell_Ok b Hg) as [[[[r c] C]|] H]; rewrite H.
  - apply find_mrv_cell_Some in H as (Hp' & Hopen' & Hsz' & Hearlier & Hall).
    destruct (before_trichotomy (r, c) (row, col)) as [Hb|[Heq|Hb]].
    + pose proof (Hbefore _ _ Hp' Hb Hopen') as H2.
      assert (size C ≠ 1) as Hne by lia.
      specialize (Hall Hne _ _ Hp Hopen). lia.
    + simplify_eq. by rewrite (is_open_fun _ _ _ _ Hopen Hopen').
    + specialize (Hearlier _ _ Hp Hb Hopen). lia.
  - apply find_mrv_cell_None in H as [Hnone|(p & T & Hp' & HT & HT0 & Hbp)].
    + destruct Hopen as [Hopen _]. by apply Hnone in Hp.
    + destruct (before_trichotomy p (row, col)) as [Hb|[->|Hb]].
      * specialize (Hbefore _ _ Hp' Hb HT). lia.
      * rewrite (is_open_fun _ _ _ _ Hopen HT) in Hsz. lia.
      * specialize (Hbp _ _ Hp Hb Hopen). lia.
Qed.

(** The conditions under which a cell is the one selected. *)
Lemma find_mrv_cell_selects (b : Board) (row col : nat)
    (cands : gset string) :
  grid_16x16 b → in_grid (row, col) → is_open b (row, col) cands →
  1 ≤ size cands →
  (∀ q T, in_grid q → before q (row, col) → is_open b q T →
          size cands < size T) →
  (size cands ≠ 1 →
   ∀ q T, in_grid q → is_open b q T → size cands ≤ size T) →
  find_mrv_cell b = Ok (Some (row, col, cands)).
Proof.
  intros Hg Hp Hopen Hsz Hearlier Hall.
  destruct (find_mrv_cell_Ok b Hg) as [[[[r c] C]|] H]; rewrite H.
  - apply find_mrv_cell_Some in H
      as (Hp' & Hopen' & Hsz' & Hearlier' & Hall').
    destruct (before_trichotomy (r, c) (row, col)) as [Hb|[Heq|Hb]].
    + pose proof (Hearlier _ _ Hp' Hb Hopen') as Hlt.
      assert (size C ≠ 1) as Hne by lia.
      specialize (Hall' Hne _ _ Hp Hopen). lia.
    + simplify_eq. by rewrite (is_open_fun _ _ _ _ Hopen Hopen').
    + pose proof (Hearlier' _ _ Hp Hb Hopen) as Hlt.
      assert (size cands ≠ 1) as Hne by lia.
      specialize (Hall Hne _ _ Hp' Hopen'). lia.
  - apply find_mrv_cell_None in H as [Hnone|(p & T & Hp' & HT & HT0 & Hbp)].
    + destruct Hopen as [Hopen _]. by apply Hnone in Hp.
    + destruct (before_trichotomy p (row, col)) as [Hb|[->|Hb]].
      * specialize (Hearlier _ _ Hp' Hb HT). lia.
      * rewrite (is_open_fun _ _ _ _ Hopen HT) in Hsz. lia.
      * pose proof (Hbp _ _ Hp Hb Hopen) as H2.
        assert (size cands ≠ 1) as Hne by lia.
        specialize (Hall Hne _ _ Hp' HT). lia.
Qed.

(** Some cell is selected as soon as a cell is empty and the scan meets no
    dead end. *)
Lemma find_mrv_cell_is_Some (b : Board) :
  grid_16x16 b →
  (∃ q, in_grid q ∧ get_cell b q.1 q.2 = Ok EMPTY_CELL) →
  (∀ q T, in_grid q → is_open b q T → 1 ≤ size T) →
  ∃ row col cands, find_mrv_cell b = Ok (Some (row, col, cands)).
Proof.
  intros Hg (q & Hq & Hempty) Hlive.
  destruct (find_mrv_cell_Ok b Hg) as [[[[r c] C]|] H]; [by eexists _, _, _|].
  exfalso.
  apply find_mrv_cell_None in H as [Hnone|(p & T & Hp & HT & HT0 & _)].
  - by apply (Hnone q).
  - specialize (Hlive _ _ Hp HT). lia.
Qed.

Lemma is_open_size (b : Board) (q : Position) (T : gset string) :
  is_open b q T → open_size b q = Some (size T).
Proof.
  intros [Hcell Hcands]. unfold open_size. rewrite Hcell, Hcands.
  by rewrite decide_True.
Qed.

Lemma open_sizes_spec (b : Board) (R : Position → nat → bool) :
  open_sizes b R →
  ∀ q T, in_grid q → is_open b q T → R q (size T) = true.
Proof.
  unfold open_sizes. rewrite Forall_forall.
  intros H q T Hq%elem_of_all_cells Hopen. specialize (H q Hq).
  by rewrite (is_open_size _ _ _ Hopen) in H.
Qed.

(** C6. The scan goes through the cells of the grid in row-major order, row
    outer and column inner.  On a 16x16 board the cell it selects is
    determined: it is the empty cell that has at least one candidate, has
    strictly fewer candidates than every empty cell before it in that order
    (the first cell wins the ties) and, unless it has a single candidate, has
    no more candidates than any empty cell of the grid; whenever a cell
    meets these conditions, the scan returns it with its candidate set, and
    whenever the scan returns a cell, the cell meets them.  A cell is selected
    as soon as some cell is empty and no empty cell lacks candidates.  An
    empty cell with exactly one candidate ends the scan at once and is
    selected, whatever comes after it, provided every empty cell before it
    has at least two candidates. *)
Theorem find_mrv_cell_selection (b : Board) :
  (find_mrv_cell b =
     r ← scan_list b all_cells (None, None);
     match r with Return x => Ok x | Continue st => Ok st.1 end) ∧
  StronglySorted before all_cells ∧
  (∀ p, p ∈ all_cells ↔ in_grid p) ∧
  (∀ row col cands,
     find_mrv_cell b = Ok (Some (row, col, cands)) →
     is_open b (row, col) cands ∧
     (∀ q T, in_grid q → before q (row, col) → is_open b q T →
             size cands < size T) ∧
     (size cands ≠ 1 →
      ∀ q T, in_grid q → is_open b q T → size cands ≤ size T)) ∧
  (∀ row col cands,
     grid_16x16 b → in_grid (row, col) → is_open b (row, col) cands →
     size cands = 1 →
     (∀ q T, in_grid q → before q (row, col) → is_open b q T → 2 ≤ size T) →
     find_mrv_cell b = Ok (Some (row, col, cands))) ∧
  (∀ row col cands,
     grid_16x16 b →
     (find_mrv_cell b = Ok (Some (row, col, cands)) ↔
      in_grid (row, col) ∧ is_open b (row, col) cands ∧ 1 ≤ size cands ∧
      (∀ q T, in_grid q → before q (row, col) → is_open b q T →
              size cands < size T) ∧
      (size cands ≠ 1 →
       ∀ q T, in_grid q → is_open b q T → size cands ≤ size T))) ∧
  (grid_16x16 b →
   (∃ q, in_grid q ∧ get_cell b q.1 q.2 = Ok EMPTY_CELL) →
   (∀ q T, in_grid q → is_open b q T → 1 ≤ size T) →
   ∃ row col cands, find_mrv_cell b = Ok (Some (row, col, cands))).
Proof.
  split_and!.
  - apply find_mrv_cell_scan_list.
  - apply all_cells_sorted.
  - apply elem_of_all_cells.
  - intros row col cands H.
    apply find_mrv_cell_Some in H as (_ & Hopen & _ & Hearlier & Hall). done.
  - apply find_mrv_cell_early_exit.
  - intros row col cands Hg. split.
    + apply find_mrv_cell_Some.
    + intros (Hp & Hopen & Hsz & Hearlier & Hall).
      by apply find_mrv_cell_selects.
  - apply find_mrv_cell_is_Some.
Qed.

Lemma find_mrv_cell_selection_witness :
  find_mrv_cell mrv_board =
  Ok (Some (4, 0,
            list_to_set ["4"; "5"; "6"; "7"; "8"; "9";
                         "A"; "B"; "C"; "D"; "E"; "F"])).
Proof.
  destruct (find_mrv_cell_selection mrv_board)
    as (_ & _ & _ & _ & _ & Hiff & _).
  assert (grid_16x16 mrv_board) as Hg
    by (apply (bool_decide_unpack _); vm_compute; reflexivity).
  apply (Hiff 4 0 _ Hg). split_and!.
  - unfold in_grid, GRID_SIZE. simpl. lia.
  - split; vm_compute; reflexivity.
  - vm_compute. lia.
  - intros q T Hq Hb Hopen.
    assert (open_sizes mrv_board
              (λ q m, bool_decide (before q (4, 0) → 12 < m))) as Hsizes
      by (apply (bool_decide_unpack _); vm_compute; reflexivity).
    pose proof (open_sizes_spec _ _ Hsizes q T Hq Hopen) as H.
    apply bool_decide_eq_true in H.
    change (12 < size T). by apply H.
  - intros _ q T Hq Hopen.
    assert (open_sizes mrv_board (λ q m, bool_decide (12 ≤ m))) as Hsizes
      by (apply (bool_decide_unpack _); vm_compute; reflexivity).
    pose proof (open_sizes_spec _ _ Hsizes q T Hq Hopen) as H.
    apply bool_decide_eq_true in H.
    change (12 ≤ size T). done.
Defined.

(** C10. When [find_mrv_cell] returns a triple, the row and the column are
    in range, the cell is empty, and the third component is what
    [get_valid_candidates] returns for that cell on the same board: a
    non-empty subset of the alphabet. *)
Theorem find_mrv_cell_triple (b : Board) (row col : nat)
    (cands : gset string) :
  find_mrv_cell b = Ok (Some (row, col, cands)) →
  row < GRID_SIZE ∧ col < GRID_SIZE ∧
  get_cell b row col = Ok EMPTY_CELL ∧
  get_valid_candidates b row col = Ok cands ∧
  cands ≠ ∅ ∧ cands ⊆ SYMBOLS.
Proof.
  intros ([Hr Hc] & [Hcell Hcands] & Hsz & _)%find_mrv_cell_Some.
  simpl in *. split_and!; try done.
  - intros ->. rewrite size_empty in Hsz. lia.
  - by eapply get_valid_candidates_subseteq.
Qed.

Lemma find_mrv_cell_triple_witness :
  0 < GRID_SIZE ∧ 14 < GRID_SIZE ∧
  get_cell two_cells_one_symbol 0 14 = Ok EMPTY_CELL ∧
  get_valid_candidates two_cells_one_symbol 0 14 = Ok {[ "E" ]} ∧
  ({[ "E" ]} : gset string) ≠ ∅ ∧ ({[ "E" ]} : gset string) ⊆ SYMBOLS.
Proof.
  apply (find_mrv_cell_triple two_cells_one_symbol 0 14 {[ "E" ]}).
  vm_compute. reflexivity.
Defined.

(** ** The order in which candidates are tried *)

Lemma sorted_Permutation (cands : gset string) :
  sorted cands ≡ₚ elements cands.
Proof. apply merge_sort_Permutation. Qed.

Lemma sorted_elem (cands : gset string) (s : string) :
  s ∈ sorted cands ↔ s ∈ cands.
Proof. by rewrite sorted_Permutation, elem_of_elements. Qed.

Lemma sorted_NoDup (cands : gset string) : NoDup (sorted cands).
Proof. rewrite sorted_Permutation. apply NoDup_elements. Qed.

Lemma sorted_ascending (cands : gset string) :
  StronglySorted String.le (sorted cands).
Proof. apply (StronglySorted_merge_sort _). Qed.

Lemma sorted_length (cands : gset string) :
  length (sorted cands) = size cands.
Proof. by rewrite sorted_Permutation. Qed.

(** A non-empty candidate set has a first symbol to try. *)
Lemma sorted_cons (cands : gset string) :
  1 ≤ size cands →
  ∃ s rest, sorted cands = s :: rest ∧ s ∈ cands.
Proof.
  intros Hsz. rewrite <- sorted_length in Hsz.
  destruct (sorted cands) as [|s rest] eqn:Hs; simpl in Hsz; [lia|].
  exists s, rest. split; [done|].
  apply sorted_elem. rewrite Hs. apply elem_of_cons. by left.
Qed.

(** ** The search *)

Lemma count_empty_set_cell (b b' : Board) (row col : nat) (v : string) :
  get_cell b row col = Ok EMPTY_CELL → v ≠ EMPTY_CELL →
  set_cell b row col v = Ok b' →
  count_empty b = S (count_empty b').
Proof.
  rewrite get_cell_Ok, set_cell_Ok.
  intros (rw & Hrw & Hcell) Hv (rw' & Hrw' & Hcol & ->). simplify_eq.
  unfold count_empty.
  rewrite insert_take_drop by (by eapply lookup_lt_Some).
  rewrite <- (take_drop_middle b row rw Hrw) at 1.
  rewrite !concat_app, !concat_cons, !filter_app, !length_app.
  rewrite insert_take_drop by done.
  rewrite <- (take_drop_middle rw col EMPTY_CELL Hcell) at 1.
  rewrite !filter_app, !length_app.
  rewrite filter_cons_True by done. rewrite filter_cons_False by done.
  simpl. lia.
Qed.

Lemma count_empty_le (b : Board) :
  grid_16x16 b → count_empty b ≤ GRID_SIZE * GRID_SIZE.
Proof.
  intros [Hlen Hrows]. unfold count_empty.
  etrans; [apply length_filter|].
  assert (length (concat b) = GRID_SIZE * length b) as ->.
  { clear Hlen. unfold GRID_SIZE in *.
    induction Hrows as [|rw b Hrw _ IH]; [done|].
    cbn [concat length]. rewrite length_app, Hrw, IH. lia. }
  by rewrite Hlen.
Qed.

(** The loop, when the recursive call cannot report a failure. *)
Lemma try_candidates_first (rec : state → result (bool * state))
    (row col : nat) (s : string) (rest : list string) (st : state)
    (res : bool * state) :
  (∀ st0 st1 ok, rec st0 = Ok (ok, st1) → ok = true) →
  try_candidates rec row col (s :: rest) st = Ok res →
  ∃ b1, set_cell (board st) row col s = Ok b1 ∧
        rec (State b1 (recursive_calls st)) = Ok res ∧ res.1 = true.
Proof.
  intros Hrec H. simpl in H. inv_bind H. rename x into b1.
  inv_bind H. destruct x as [ok st2].
  pose proof (Hrec _ _ _ Hx0) as ->. injection H as <-.
  by exists b1.
Qed.

(** A call of [solve_sudoku] never reports a failure: the scan hands a
    non-empty candidate set to the loop, and the recursive call on its first
    symbol succeeds. *)
Lemma solve_fuel_true (fuel : nat) (st st' : state) (ok : bool) :
  solve_fuel fuel st = Ok (ok, st') → ok = true.
Proof.
  revert st st' ok. induction fuel as [|fuel IH]; intros st st' ok H; [done|].
  simpl in H. inv_bind H. destruct x as [[[row col] cands]|].
  - apply find_mrv_cell_Some in Hx as (_ & _ & Hsz & _).
    destruct (sorted_cons cands Hsz) as (s & rest & Hs & _).
    rewrite Hs in H.
    by apply (try_candidates_first _ _ _ _ _ _ _ IH) in H as (_ & _ & _ & ?).
  - congruence.
Qed.

(** One call of [solve_sudoku], unfolded. *)
Lemma solve_fuel_step (fuel : nat) (st st' : state) (ok : bool) :
  solve_fuel (S fuel) st = Ok (ok, st') →
  ok = true ∧
  ((find_mrv_cell (board st) = Ok None ∧
    st' = State (board st) (recursive_calls st + 1)) ∨
   (∃ row col cands s rest b1,
      find_mrv_cell (board st) = Ok (Some (row, col, cands)) ∧
      sorted cands = s :: rest ∧
      set_cell (board st) row col s = Ok b1 ∧
      solve_fuel fuel (State b1 (recursive_calls st + 1)) = Ok (true, st'))).
Proof.
  intros H. pose proof (solve_fuel_true _ _ _ _ H) as ->. split; [done|].
  simpl in H. inv_bind H. destruct x as [[[row col] cands]|].
  - right. pose proof Hx as (_ & _ & Hsz & _)%find_mrv_cell_Some.
    destruct (sorted_cons cands Hsz) as (s & rest & Hs & _).
    rewrite Hs in H.
    apply (try_candidates_first _ _ _ _ _ _ _ (solve_fuel_true fuel)) in H
      as (b1 & Hset & Hrec & _).
    by exists row, col, cands, s, rest, b1.
  - left. split; [done|congruence].
Qed.

(** Enough fuel: one unit more than the number of empty cells. *)
Lemma solve_fuel_grid (fuel : nat) (st : state) :
  grid_16x16 (board st) → count_empty (board st) < fuel →
  ∃ st', solve_fuel fuel st = Ok (true, st').
Proof.
  revert st. induction fuel as [|fuel IH]; intros st Hg Hfuel; [lia|].
  cbn [solve_fuel]. cbn [board recursive_calls].
  destruct (find_mrv_cell_Ok _ Hg) as [[[[row col] cands]|] Hmrv];
    rewrite Hmrv, Ok_bind; [|by eexists].
  pose proof Hmrv as (_ & [Hcell Hcands] & Hsz & _)%find_mrv_cell_Some.
  simpl in Hcell, Hcands.
  destruct (sorted_cons cands Hsz) as (s & rest & Hs & Hin).
  rewrite Hs. cbn [try_candidates board recursive_calls].
  destruct (set_cell_after_get _ _ _ _ s Hcell) as [b1 Hset].
  rewrite Hset, Ok_bind.
  assert (s ≠ EMPTY_CELL) as Hne.
  { intros ->. apply (get_valid_candidates_subseteq _ _ _ _ Hcands) in Hin.
    by apply EMPTY_CELL_not_symbol. }
  pose proof (count_empty_set_cell _ _ _ _ _ Hcell Hne Hset) as Hcount.
  destruct (IH (State b1 (recursive_calls st + 1))) as [st' Hrec].
  { by eapply set_cell_grid. }
  { simpl. lia. }
  rewrite Hrec, Ok_bind. by eexists.
Qed.

(** More fuel does not change a result. *)
Lemma try_candidates_mono (rec1 rec2 : state → result (bool * state))
    (row col : nat) (symbols : list string) (st : state)
    (res : bool * state) :
  (∀ st0 res0, rec1 st0 = Ok res0 → rec2 st0 = Ok res0) →
  try_candidates rec1 row col symbols st = Ok res →
  try_candidates rec2 row col symbols st = Ok res.
Proof.
  intros Hrec. revert st.
  induction symbols as [|s symbols IH]; intros st H; [done|].
  simpl in *. inv_bind H. rewrite Hx, Ok_bind.
  inv_bind H. rewrite (Hrec _ _ Hx0), Ok_bind.
  destruct x0 as [[] st2]; [done|].
  inv_bind H. rewrite Hx1, Ok_bind. by apply IH.
Qed.

Lemma solve_fuel_mono (fuel fuel' : nat) (st : state) (res : bool * state) :
  fuel ≤ fuel' → solve_fuel fuel st = Ok res → solve_fuel fuel' st = Ok res.
Proof.
  revert fuel' st res.
  induction fuel as [|fuel IH]; intros fuel' st res Hle H; [done|].
  destruct fuel' as [|fuel']; [lia|].
  simpl in *. inv_bind H. rewrite Hx, Ok_bind.
  destruct x as [[[row col] cands]|]; [|done].
  eapply try_candidates_mono; [|done].
  intros st0 res0. apply IH. lia.
Qed.

(** The fuel never runs out, on any board: [OutOfFuel] is not a result of
    [solve_sudoku]. *)
Lemma bind_fuel {A B : Type} (m : result A) (k : A → result B) :
  m ≠ OutOfFuel → (∀ x, m = Ok x → k x ≠ OutOfFuel) → m ≫= k ≠ OutOfFuel.
Proof. destruct m; [by eauto|done..]. Qed.

Lemma get_row_fuel (b : Board) (row : nat) : get_row b row ≠ OutOfFuel.
Proof. unfold get_row. by destruct (b !! row). Qed.

Lemma get_cell_fuel (b : Board) (row col : nat) :
  get_cell b row col ≠ OutOfFuel.
Proof.
  apply bind_fuel; [apply get_row_fuel|]. intros rw _. by destruct (rw !! col).
Qed.

Lemma set_cell_fuel (b : Board) (row col : nat) (v : string) :
  set_cell b row col v ≠ OutOfFuel.
Proof.
  apply bind_fuel; [apply get_row_fuel|]. intros rw _. by case_decide.
Qed.

Lemma for_each_fuel {St : Type} (xs : list nat) (body : nat → St → result St)
    (s : St) :
  (∀ x s, body x s ≠ OutOfFuel) → for_each xs body s ≠ OutOfFuel.
Proof.
  intros Hbody. revert s. induction xs as [|x xs IH]; intros s; [done|].
  simpl. apply bind_fuel; [apply Hbody|]. intros s' _. apply IH.
Qed.

Lemma get_valid_candidates_fuel (b : Board) (row col : nat) :
  get_valid_candidates b row col ≠ OutOfFuel.
Proof.
  unfold get_valid_candidates.
  apply bind_fuel; [apply get_row_fuel|]. intros rw _.
  apply bind_fuel.
  { apply for_each_fuel. intros r u.
    apply bind_fuel; [apply get_cell_fuel|done]. }
  intros u1 _. apply bind_fuel; [|done].
  apply for_each_fuel. intros r u. apply for_each_fuel. intros c u'.
  apply bind_fuel; [apply get_cell_fuel|done].
Qed.

Lemma scan_cell_fuel (b : Board) (row col : nat) (st : ScanState) :
  scan_cell b row col st ≠ OutOfFuel.
Proof.
  unfold scan_cell. apply bind_fuel; [apply get_cell_fuel|]. intros v _.
  case_decide; [|done].
  apply bind_fuel; [apply get_valid_candidates_fuel|]. intros cands _.
  repeat (case_decide || destruct (lt_domain_size _ _)); done.
Qed.

Lemma scan_list_fuel (b : Board) (cells : list Position) (st : ScanState) :
  scan_list b cells st ≠ OutOfFuel.
Proof.
  revert st. induction cells as [|p cells IH]; intros st; [done|].
  simpl. apply bind_fuel; [apply scan_cell_fuel|]. intros [x|st'] _; [done|].
  apply IH.
Qed.

Lemma find_mrv_cell_fuel (b : Board) : find_mrv_cell b ≠ OutOfFuel.
Proof.
  rewrite find_mrv_cell_scan_list.
  apply bind_fuel; [apply scan_list_fuel|]. by intros [x|st'] _.
Qed.

Lemma solve_fuel_enough (fuel : nat) (st : state) :
  count_empty (board st) < fuel → solve_fuel fuel st ≠ OutOfFuel.
Proof.
  revert st. induction fuel as [|fuel IH]; intros st Hfuel; [lia|].
  cbn [solve_fuel board recursive_calls].
  apply bind_fuel; [apply find_mrv_cell_fuel|].
  intros [[[row col] cands]|] Hmrv; [|done].
  apply find_mrv_cell_Some in Hmrv as (_ & [Hcell Hcands] & Hsz & _).
  simpl in Hcell, Hcands.
  destruct (sorted_cons cands Hsz) as (s & rest & -> & Hin).
  cbn [try_candidates board recursive_calls].
  apply bind_fuel; [apply set_cell_fuel|]. intros b1 Hset.
  assert (s ≠ EMPTY_CELL) as Hne.
  { intros ->. apply (get_valid_candidates_subseteq _ _ _ _ Hcands) in Hin.
    by apply EMPTY_CELL_not_symbol. }
  pose proof (count_empty_set_cell _ _ _ _ _ Hcell Hne Hset) as Hcount.
  apply bind_fuel; [apply IH; simpl; lia|].
  intros [ok st2] Hrec. by rewrite (solve_fuel_true _ _ _ _ Hrec).
Qed.

Lemma solve_sudoku_fuel_enough (st : state) : solve_sudoku st ≠ OutOfFuel.
Proof. apply solve_fuel_enough. lia. Qed.

(** Cells that hold a symbol are never written. *)
Lemma solve_fuel_frame (fuel : nat) (st st' : state) (ok : bool)
    (r c : nat) (v : string) :
  solve_fuel fuel st = Ok (ok, st') →
  get_cell (board st) r c = Ok v → v ≠ EMPTY_CELL →
  get_cell (board st') r c = Ok v.
Proof.
  revert st st' ok. induction fuel as [|fuel IH]; intros st st' ok H Hv Hne;
    [done|].
  apply solve_fuel_step in H
    as [_ [[_ ->]|(row & col & cands & s & rest & b1 & Hmrv & _ & Hset & Hrec)]];
    [done|].
  apply (IH _ _ _ Hrec); [|done]. simpl.
  apply find_mrv_cell_Some in Hmrv as (_ & [Hcell _] & _). simpl in Hcell.
  rewrite (get_set_cell_ne _ _ _ _ r c _ Hset); [done|].
  intros [= -> ->]. congruence.
Qed.

(** C7. The loop of [solve_sudoku] runs over [sorted candidates], which lists
    the candidates without repetition in ascending code-point order (for the
    whole alphabet: digits 0 to 9, then letters A to F).  When the recursive
    call on the first symbol succeeds, the loop returns success with the state
    that call left, whatever symbols remain to be tried; when it fails, the
    cell is written back to the sentinel and the loop goes on with the
    remaining symbols from that board; with no symbol left it fails.  In a
    call of [solve_sudoku] that selects a cell, the symbol assigned is the
    least candidate, the result is the one of the recursive call on that
    assignment, and the cell still holds that symbol when the call returns. *)
Theorem candidates_tried_in_order :
  (∀ cands : gset string,
     StronglySorted String.le (sorted cands) ∧ NoDup (sorted cands) ∧
     ∀ s, s ∈ sorted cands ↔ s ∈ cands) ∧
  sorted SYMBOLS = SYMBOLS_list ∧
  (∀ fuel st row col cands,
     find_mrv_cell (board st) = Ok (Some (row, col, cands)) →
     solve_fuel (S fuel) st =
     try_candidates (solve_fuel fuel) row col (sorted cands)
       (State (board st) (recursive_calls st + 1))) ∧
  (∀ rec row col s rest st b1 st2,
     set_cell (board st) row col s = Ok b1 →
     rec (State b1 (recursive_calls st)) = Ok (true, st2) →
     try_candidates rec row col (s :: rest) st = Ok (true, st2)) ∧
  (∀ rec row col s rest st b1 st2,
     set_cell (board st) row col s = Ok b1 →
     rec (State b1 (recursive_calls st)) = Ok (false, st2) →
     try_candidates rec row col (s :: rest) st =
       (b3 ← set_cell (board st2) row col EMPTY_CELL;
        try_candidates rec row col rest (State b3 (recursive_calls st2))) ∧
     ∀ b3, set_cell (board st2) row col EMPTY_CELL = Ok b3 →
           get_cell b3 row col = Ok EMPTY_CELL) ∧
  (∀ rec row col st, try_candidates rec row col [] st = Ok (false, st)) ∧
  (∀ fuel st ok st' row col cands,
     find_mrv_cell (board st) = Ok (Some (row, col, cands)) →
     solve_fuel (S fuel) st = Ok (ok, st') →
     ∃ s b1,
       s ∈ cands ∧ (∀ s', s' ∈ cands → String.le s s') ∧
       set_cell (board st) row col s = Ok b1 ∧
       solve_fuel fuel (State b1 (recursive_calls st + 1)) = Ok (ok, st') ∧
       get_cell (board st') row col = Ok s).
Proof.
  split_and!.
  - intros cands. split_and!.
    + apply sorted_ascending.
    + apply sorted_NoDup.
    + apply sorted_elem.
  - by vm_compute.
  - intros fuel st row col cands H. cbn [solve_fuel board recursive_calls].
    by rewrite H.
  - intros rec row col s rest st b1 st2 Hset Hrec. simpl.
    by rewrite Hset, Ok_bind, Hrec.
  - intros rec row col s rest st b1 st2 Hset Hrec. split.
    + simpl. by rewrite Hset, Ok_bind, Hrec.
    + intros b3. apply get_set_cell_eq.
  - done.
  - intros fuel st ok st' row col cands Hmrv H.
    apply solve_fuel_step in H
      as [-> [[Hnone _]|(r & c & C & s & rest & b1 & Hmrv' & Hs & Hset & Hrec)]];
      [congruence|].
    rewrite Hmrv in Hmrv'. injection Hmrv' as <- <- <-.
    assert (s ∈ cands) as Hin.
    { apply sorted_elem. rewrite Hs. apply elem_of_cons. by left. }
    exists s, b1. split_and!; [done| |done|done|].
    + intros s' Hs'%sorted_elem. pose proof (sorted_ascending cands) as Hsorted.
      rewrite Hs in Hs', Hsorted.
      apply StronglySorted_cons in Hsorted as [Hle _].
      apply elem_of_cons in Hs' as [->|Hs']; [done|].
      rewrite Forall_forall in Hle. by apply Hle.
    + apply (solve_fuel_frame _ _ _ _ _ _ _ Hrec).
      * simpl. by apply (get_set_cell_eq (board st)).
      * apply find_mrv_cell_Some in Hmrv as (_ & [_ Hcands] & _).
        intros ->. apply (get_valid_candidates_subseteq _ _ _ _ Hcands) in Hin.
        by apply EMPTY_CELL_not_symbol.
Qed.

Lemma candidates_tried_in_order_witness :
  try_candidates (λ st, Ok (false, st)) 0 14 ["E"; "F"]
    (State two_cells_one_symbol 0) =
  (b3 ← set_cell two_cells_one_symbol_after 0 14 EMPTY_CELL;
   try_candidates (λ st, Ok (false, st)) 0 14 ["F"] (State b3 0)).
Proof.
  destruct candidates_tried_in_order as (_ & _ & _ & _ & Hfail & _ & _).
  apply (Hfail (λ st, Ok (false, st)) 0 14 "E" ["F"]
           (State two_cells_one_symbol 0) two_cells_one_symbol_after
           (State two_cells_one_symbol_after 0)); reflexivity.
Defined.

(** C8. On a 16x16 board [solve_sudoku] returns: the board has at most 256
    empty cells, every recursive call is made on a board with one empty cell
    less, so the fuel handed to [solve_fuel] by [solve_sudoku] is enough, and
    any larger amount of fuel gives the same result. *)
Theorem solve_sudoku_terminates (st : state) :
  grid_16x16 (board st) →
  count_empty (board st) ≤ 256 ∧
  ∃ res, solve_sudoku st = Ok res ∧
         ∀ fuel, count_empty (board st) < fuel → solve_fuel fuel st = Ok res.
Proof.
  intros Hg. split; [by apply count_empty_le|].
  destruct (solve_fuel_grid (S (count_empty (board st))) st Hg) as [st' H];
    [lia|].
  exists (true, st'). split; [done|].
  intros fuel Hfuel. apply (solve_fuel_mono (S (count_empty (board st)))); [lia|done].
Qed.

Lemma solve_sudoku_terminates_witness :
  count_empty two_cells_one_symbol ≤ 256 ∧
  ∃ res, solve_sudoku (State two_cells_one_symbol 0) = Ok res ∧
         ∀ fuel, count_empty two_cells_one_symbol < fuel →
                 solve_fuel fuel (State two_cells_one_symbol 0) = Ok res.
Proof.
  apply (solve_sudoku_terminates (State two_cells_one_symbol 0)).
  apply (bool_decide_unpack _). vm_compute. reflexivity.
Defined.

(** C9. Whatever [solve_sudoku] returns, a cell that held a symbol when it
    was called holds the same symbol afterwards: the only cell a call
    assigns is the one selected by the scan, which is empty at that time. *)
Theorem solve_sudoku_frame (st st' : state) (ok : bool) (r c : nat)
    (v : string) :
  solve_sudoku st = Ok (ok, st') →
  get_cell (board st) r c = Ok v → v ≠ EMPTY_CELL →
  get_cell (board st') r c = Ok v.
Proof. apply solve_fuel_frame. Qed.

Lemma solve_sudoku_frame_witness :
  get_cell two_cells_one_symbol_after 5 14 = Ok "F".
Proof.
  apply (solve_sudoku_frame (State two_cells_one_symbol 0)
           (State two_cells_one_symbol_after 2) true 5 14 "F").
  - vm_compute. reflexivity.
  - reflexivity.
  - discriminate.
Defined.

(** ** Solutions and consistency *)

Lemma groups_are_groups : Forall is_group groups.
Proof. apply (bool_decide_unpack _). by vm_compute. Qed.

Lemma elem_of_row_cells (p : Position) (r : nat) :
  p ∈ row_cells r ↔ p.1 = r ∧ p.2 < GRID_SIZE.
Proof.
  unfold row_cells. rewrite list_elem_of_fmap. setoid_rewrite elem_of_range.
  destruct p as [r' c']. simpl. split.
  - intros (c & [= -> ->] & Hc). lia.
  - intros [-> Hc]. exists c'. split; [done|lia].
Qed.

Lemma elem_of_col_cells (p : Position) (c : nat) :
  p ∈ col_cells c ↔ p.2 = c ∧ p.1 < GRID_SIZE.
Proof.
  unfold col_cells. rewrite list_elem_of_fmap. setoid_rewrite elem_of_range.
  destruct p as [r' c']. simpl. split.
  - intros (r & [= -> ->] & Hr). lia.
  - intros [-> Hr]. exists r'. split; [done|lia].
Qed.

Lemma elem_of_block_cells (p : Position) (r c : nat) :
  p ∈ block_cells r c ↔
  r / 4 * 4 ≤ p.1 < r / 4 * 4 + 4 ∧ c / 4 * 4 ≤ p.2 < c / 4 * 4 + 4.
Proof. unfold block_cells. by rewrite elem_of_cells_of, !elem_of_range. Qed.

Lemma block_origin (x : nat) :
  x < GRID_SIZE → x / 4 * 4 ∈ [0; 4; 8; 12] ∧ x / 4 * 4 / 4 * 4 = x / 4 * 4.
Proof.
  unfold GRID_SIZE. intros Hx.
  assert (x / 4 < 4) as Hq by (apply Nat.Div0.div_lt_upper_bound; lia).
  rewrite Nat.div_mul by done. split; [|done].
  destruct (x / 4) as [|[|[|[|]]]]; [| | | |lia]; simpl;
    repeat (apply elem_of_cons; (by left) || right).
Qed.

Lemma same_block_range (x y : nat) :
  x / 4 = y / 4 ↔ x / 4 * 4 ≤ y < x / 4 * 4 + 4.
Proof.
  pose proof (Nat.div_mod_eq y 4). pose proof (Nat.mod_upper_bound y 4).
  split; [intros ->; lia|]. intros Hy.
  apply (Nat.div_unique y 4 (x / 4) (y - x / 4 * 4)); lia.
Qed.

(** Two cells of the grid that share a row, a column or a block lie in one
    of the 48 groups. *)
Lemma same_group_common (p q : Position) :
  in_grid p → in_grid q → same_group p q →
  ∃ g, g ∈ groups ∧ p ∈ g ∧ q ∈ g.
Proof.
  intros [Hp1 Hp2] [Hq1 Hq2] [Hrow|[Hcol|[Hb1 Hb2]]].
  - exists (row_cells p.1). split_and!.
    + apply elem_of_app. left. apply list_elem_of_fmap. exists p.1.
      split; [done|]. apply elem_of_range. lia.
    + by apply elem_of_row_cells.
    + by apply elem_of_row_cells.
  - exists (col_cells p.2). split_and!.
    + apply elem_of_app. right. apply elem_of_app. left.
      apply list_elem_of_fmap. exists p.2.
      split; [done|]. apply elem_of_range. lia.
    + by apply elem_of_col_cells.
    + by apply elem_of_col_cells.
  - exists (block_cells p.1 p.2). split_and!.
    + apply elem_of_app. right. apply elem_of_app. right.
      destruct (block_origin p.1 Hp1) as [Ho1 He1].
      destruct (block_origin p.2 Hp2) as [Ho2 He2].
      apply list_elem_of_fmap. exists (p.1 / 4 * 4, p.2 / 4 * 4). split.
      * cbn [fst snd]. unfold block_cells. by rewrite He1, He2.
      * by apply elem_of_cells_of.
    + apply elem_of_block_cells. by rewrite <- !same_block_range.
    + apply elem_of_block_cells. by rewrite <- !same_block_range.
Qed.

Lemma group_cells (g : list Position) (p q : Position) :
  g ∈ groups → p ∈ g → q ∈ g → in_grid p ∧ same_group p q.
Proof.
  intros Hg Hp Hq.
  pose proof groups_are_groups as H. rewrite Forall_forall in H.
  destruct (H g Hg) as (_ & _ & Hin & Hsame).
  rewrite Forall_forall in Hin, Hsame. split; [by apply Hin|].
  specialize (Hsame p Hp). rewrite Forall_forall in Hsame. by apply Hsame.
Qed.

Lemma NoDup_fmap_inj_on {A B : Type} (f : A → B) (l : list A) (x y : A) :
  NoDup (f <$> l) → x ∈ l → y ∈ l → f x = f y → x = y.
Proof.
  induction l as [|a l IH]; intros Hnd Hx Hy Hf; [by apply elem_of_nil in Hx|].
  rewrite fmap_cons in Hnd. apply NoDup_cons in Hnd as [Ha Hnd].
  apply elem_of_cons in Hx as [->|Hx], Hy as [->|Hy]; [done| | |by apply IH].
  - exfalso. apply Ha. rewrite Hf. by apply list_elem_of_fmap_2.
  - exfalso. apply Ha. rewrite <- Hf. by apply list_elem_of_fmap_2.
Qed.

Lemma SYMBOLS_list_NoDup : NoDup SYMBOLS_list.
Proof. apply (bool_decide_unpack _). by vm_compute. Qed.

Lemma elem_of_SYMBOLS (s : string) : s ∈ SYMBOLS ↔ s ∈ SYMBOLS_list.
Proof. unfold SYMBOLS. apply elem_of_list_to_set. Qed.

Lemma EMPTY_CELL_not_in_list : EMPTY_CELL ∉ SYMBOLS_list.
Proof. rewrite <- elem_of_SYMBOLS. apply EMPTY_CELL_not_symbol. Qed.

(** In a solution, every cell of the grid holds a symbol, and two cells of
    one row, column or block hold different symbols. *)
Lemma valid_solution_symbol (b : Board) (p : Position) :
  valid_solution b → in_grid p → sym_at b p ∈ SYMBOLS_list.
Proof.
  intros Hvalid Hp. unfold valid_solution in Hvalid.
  rewrite Forall_forall in Hvalid.
  destruct (same_group_common p p Hp Hp) as (g & Hg & Hpg & _); [by left|].
  rewrite <- (Hvalid g Hg). by apply list_elem_of_fmap_2.
Qed.

Lemma valid_solution_distinct (b : Board) (p q : Position) :
  valid_solution b → in_grid p → in_grid q → p ≠ q → same_group p q →
  sym_at b p ≠ sym_at b q.
Proof.
  intros Hvalid Hp Hq Hne Hsame Heq. unfold valid_solution in Hvalid.
  rewrite Forall_forall in Hvalid.
  destruct (same_group_common p q Hp Hq Hsame) as (g & Hg & Hpg & Hqg).
  apply Hne. apply (NoDup_fmap_inj_on (sym_at b) g); [|done..].
  rewrite (Hvalid g Hg). apply SYMBOLS_list_NoDup.
Qed.

Lemma sym_at_get_cell (b : Board) (r c : nat) :
  sym_at b (r, c) =
  match get_cell b r c with Ok v => v | _ => EMPTY_CELL end.
Proof.
  unfold sym_at, get_cell, get_row. simpl.
  destruct (b !! r) as [rw|]; [|done]. simpl. by destruct (rw !! c).
Qed.

Lemma sym_at_set_cell (b b' : Board) (row col : nat) (v : string)
    (p : Position) :
  set_cell b row col v = Ok b' →
  sym_at b' p = if decide (p = (row, col)) then v else sym_at b p.
Proof.
  intros Hset. destruct p as [r c]. rewrite !sym_at_get_cell.
  case_decide as Hp.
  - injection Hp as -> ->. by rewrite (get_set_cell_eq _ _ _ _ _ Hset).
  - by rewrite (get_set_cell_ne _ _ _ _ _ _ _ Hset Hp).
Qed.

Lemma same_group_sym (p q : Position) : same_group p q → same_group q p.
Proof.
  intros [H|[H|[H1 H2]]]; [by left|by right; left|by right; right].
Qed.

(** A candidate of a cell stands nowhere in the row, the column or the block
    of that cell. *)
Lemma candidate_not_in_group (b : Board) (row col : nat)
    (cands : gset string) (s : string) (q : Position) :
  grid_16x16 b → in_grid q →
  get_valid_candidates b row col = Ok cands → s ∈ cands →
  same_group q (row, col) → sym_at b q ≠ s.
Proof.
  intros Hg [Hq1 Hq2] Hcands Hs Hsame Heq.
  apply (get_valid_candidates_elem _ _ _ _ Hcands) in Hs
    as (_ & Hrow & Hcol & Hblock).
  pose proof (grid_get_cell b q.1 q.2 Hg Hq1 Hq2) as Hcell.
  rewrite <- surjective_pairing, Heq in Hcell.
  destruct Hsame as [H1|[H2|[H1 H2]]]; simpl in *.
  - apply Hrow. exists q.2. by rewrite <- H1.
  - apply Hcol. exists q.1. by rewrite <- H2.
  - apply Hblock. exists q.1, q.2.
    split; [|split]; [by apply same_block_range..|done].
Qed.

Lemma consistent_set_cell (b b' : Board) (row col : nat)
    (cands : gset string) (s : string) :
  grid_16x16 b → consistent b →
  get_valid_candidates b row col = Ok cands → s ∈ cands →
  set_cell b row col s = Ok b' → consistent b'.
Proof.
  intros Hg Hcons Hcands Hs Hset p q Hp Hq Hne Hsame.
  rewrite !(sym_at_set_cell _ _ _ _ _ _ Hset).
  destruct (decide (p = (row, col))) as [->|Hp'],
           (decide (q = (row, col))) as [->|Hq']; [done| | |by apply Hcons].
  - intros Heq. exfalso.
    by apply (candidate_not_in_group b row col cands s q Hg Hq Hcands Hs
                (same_group_sym _ _ Hsame)).
  - intros Heq. exfalso.
    by apply (candidate_not_in_group b row col cands s p Hg Hp Hcands Hs Hsame).
Qed.

Lemma well_formed_set_cell (b b' : Board) (row col : nat) (v : string) :
  well_formed b → v ∈ SYMBOLS_list ∨ v = EMPTY_CELL →
  set_cell b row col v = Ok b' → well_formed b'.
Proof.
  intros [Hg Hcells] Hv Hset. split; [by eapply set_cell_grid|].
  apply set_cell_Ok in Hset as (rw & Hrw & _ & ->).
  apply Forall_insert; [done|]. apply Forall_insert; [|done].
  by eapply (Forall_lookup_1 _ _ _ _ Hcells).
Qed.

(** The search keeps a well-formed, consistent board well formed and
    consistent. *)
Lemma solve_fuel_invariant (fuel : nat) (st st' : state) (ok : bool) :
  solve_fuel fuel st = Ok (ok, st') →
  well_formed (board st) → consistent (board st) →
  well_formed (board st') ∧ consistent (board st').
Proof.
  revert st st' ok.
  induction fuel as [|fuel IH]; intros st st' ok H Hwf Hcons; [done|].
  apply solve_fuel_step in H
    as [_ [[_ ->]|(row & col & cands & s & rest & b1 & Hmrv & Hs & Hset & Hrec)]];
    [done|].
  apply find_mrv_cell_Some in Hmrv as (_ & [_ Hcands] & _). simpl in Hcands.
  assert (s ∈ cands) as Hin.
  { apply sorted_elem. rewrite Hs. apply elem_of_cons. by left. }
  apply (IH _ _ _ Hrec); simpl.
  - apply (well_formed_set_cell (board st) b1 row col s Hwf); [|done]. left.
    apply elem_of_SYMBOLS. by apply (get_valid_candidates_subseteq _ _ _ _ Hcands).
  - destruct Hwf as [Hg _]. by eapply consistent_set_cell.
Qed.

(** On a well-formed board without empty cell, every cell of the grid holds a
    symbol. *)
Lemma complete_symbol (b : Board) (p : Position) :
  well_formed b → count_empty b = 0 → in_grid p →
  sym_at b p ∈ SYMBOLS_list.
Proof.
  intros [Hg Hcells] Hcount [Hp1 Hp2].
  pose proof (grid_get_cell b p.1 p.2 Hg Hp1 Hp2) as Hcell.
  rewrite <- surjective_pairing in Hcell.
  apply get_cell_Ok in Hcell as (rw & Hrw & Hv).
  pose proof (Forall_lookup_1 _ _ _ _ Hcells Hrw) as Hrow.
  destruct (Forall_lookup_1 _ _ _ _ Hrow Hv) as [?|Hempty]; [done|].
  exfalso. unfold count_empty in Hcount. apply nil_length_inv in Hcount.
  apply (filter_nil_not_elem_of _ _ _ Hcount Hempty).
  apply list_elem_of_In, in_concat. exists rw.
  split; apply list_elem_of_In; by eapply list_elem_of_lookup_2.
Qed.

(** A complete consistent board is a solution. *)
Lemma complete_consistent_valid (b : Board) :
  well_formed b → consistent b → count_empty b = 0 → valid_solution b.
Proof.
  intros Hwf Hcons Hcount. apply Forall_forall. intros g Hg.
  pose proof groups_are_groups as Hgroups. rewrite Forall_forall in Hgroups.
  destruct (Hgroups g Hg) as (Hnd & Hlen & Hin & _).
  rewrite Forall_forall in Hin.
  unfold all_once. apply submseteq_length_Permutation.
  - apply NoDup_submseteq.
    + apply NoDup_fmap_2_strong; [|done]. intros p q Hp Hq Heq.
      destruct (decide (p = q)) as [|Hne]; [done|]. exfalso.
      destruct (group_cells g p q Hg Hp Hq) as [Hpg Hsame].
      pose proof (Hcons p q Hpg (Hin q Hq) Hne Hsame Heq) as Hempty.
      pose proof (complete_symbol b p Hwf Hcount Hpg) as Hsym.
      rewrite Hempty in Hsym. by apply EMPTY_CELL_not_in_list.
    + intros s (p & -> & Hp)%list_elem_of_fmap.
      apply (complete_symbol b p Hwf Hcount). by apply Hin.
  - by rewrite length_fmap, Hlen.
Qed.

(** The value a solution gives to an empty cell of [b] is one of the
    candidates of that cell: an empty cell without candidates makes the board
    unsolvable. *)
Lemma solution_in_candidates (b b' : Board) (row col : nat)
    (cands : gset string) :
  grid_16x16 b → extends b b' → valid_solution b' →
  in_grid (row, col) → is_open b (row, col) cands →
  sym_at b' (row, col) ∈ cands.
Proof.
  intros Hg Hext Hvalid Hp [Hcell Hcands]. simpl in Hcell, Hcands.
  pose proof (valid_solution_symbol b' (row, col) Hvalid Hp) as Hsym.
  assert (∀ r c, get_cell b r c = Ok (sym_at b' (row, col)) →
                 same_group (r, c) (row, col) → False) as Hno.
  { intros r c Hrc Hsame.
    assert (in_grid (r, c)) as Hq.
    { apply get_cell_Ok in Hrc as (rw & Hrw & Hv). split; simpl.
      - destruct Hg as [<- _]. by eapply lookup_lt_Some.
      - destruct Hg as [_ Hrows].
        rewrite <- (Forall_lookup_1 _ _ _ _ Hrows Hrw).
        by eapply lookup_lt_Some. }
    assert ((r, c) ≠ (row, col)) as Hne.
    { intros [= -> ->]. rewrite Hcell in Hrc. injection Hrc as Hrc.
      rewrite <- Hrc in Hsym. by apply EMPTY_CELL_not_in_list. }
    apply (valid_solution_distinct b' (r, c) (row, col)); [done..|].
    rewrite (Hext (r, c) Hq).
    - by apply get_cell_sym_at.
    - rewrite (get_cell_sym_at _ _ _ _ Hrc). intros Hempty.
      rewrite Hempty in Hsym. by apply EMPTY_CELL_not_in_list. }
  apply (get_valid_candidates_elem _ _ _ _ Hcands). split_and!.
  - by apply elem_of_SYMBOLS.
  - intros [c Hc]. apply (Hno row c Hc). by left.
  - intros (r & _ & Hr). apply (Hno r col Hr). right. by left.
  - intros (r & c & Hr & Hc & Hrc). apply (Hno r c Hrc). right. right.
    simpl. split; symmetry; by apply same_block_range.
Qed.

Lemma extends_all_cells (b b' : Board) :
  Forall (λ p, sym_at b p ≠ EMPTY_CELL → sym_at b' p = sym_at b p) all_cells →
  extends b b'.
Proof.
  rewrite Forall_forall. intros H p Hp. apply H. by apply elem_of_all_cells.
Qed.

Lemma extends_consistent (b b' : Board) :
  extends b b' → valid_solution b' → consistent b.
Proof.
  intros Hext Hvalid p q Hp Hq Hne Hsame Heq.
  destruct (decide (sym_at b p = EMPTY_CELL)) as [|Hfilled]; [done|].
  exfalso. apply (valid_solution_distinct b' p q Hvalid Hp Hq Hne Hsame).
  rewrite (Hext p Hp Hfilled), (Hext q Hq); [done|]. by rewrite <- Heq.
Qed.

(** Forward checking is sound: an empty cell without candidates has no
    completion. *)
Lemma dead_end_unsolvable (b : Board) (p : Position) :
  grid_16x16 b → in_grid p → is_open b p ∅ → ¬ solvable b.
Proof.
  intros Hg Hp Hopen (b' & _ & Hext & Hvalid). destruct p as [row col].
  by apply (not_elem_of_empty (C:=gset string) (sym_at b' (row, col))),
    (solution_in_candidates b b' row col ∅).
Qed.

(** A dead end met before any cell with a single candidate makes the scan
    return [None], and the call return [true] with the board untouched. *)
Lemma find_mrv_cell_dead_end (b : Board) (p : Position) :
  grid_16x16 b → in_grid p → is_open b p ∅ →
  (∀ q T, in_grid q → before q p → is_open b q T → 2 ≤ size T) →
  find_mrv_cell b = Ok None.
Proof.
  intros Hg Hp Hopen Hbefore.
  destruct (find_mrv_cell_Ok b Hg) as [[[[r c] C]|] H]; [|done].
  exfalso.
  apply find_mrv_cell_Some in H as (Hp' & Hopen' & Hsz & Hearlier & Hall).
  destruct (before_trichotomy (r, c) p) as [Hb|[Heq|Hb]].
  - pose proof (Hbefore _ _ Hp' Hb Hopen') as H2.
    assert (size C ≠ 1) as Hne by lia.
    specialize (Hall Hne _ _ Hp Hopen). rewrite size_empty in Hall. lia.
  - subst p. rewrite (is_open_fun _ _ _ _ Hopen' Hopen), size_empty in Hsz.
    lia.
  - specialize (Hearlier _ _ Hp Hb Hopen). rewrite size_empty in Hearlier.
    lia.
Qed.

Lemma solve_sudoku_dead_end (st : state) :
  find_mrv_cell (board st) = Ok None →
  solve_sudoku st = Ok (true, State (board st) (recursive_calls st + 1)).
Proof.
  intros H. unfold solve_sudoku. cbn [solve_fuel board recursive_calls].
  by rewrite H.
Qed.

Lemma solve_sudoku_never_false (st st' : state) (ok : bool) :
  solve_sudoku st = Ok (ok, st') → ok = true.
Proof. apply solve_fuel_true. Qed.

Lemma solved_grid_valid : well_formed solved_grid ∧ valid_solution solved_grid.
Proof. split; apply (bool_decide_unpack _); by vm_compute. Qed.

Lemma two_rows_cleared_extends : extends two_rows_cleared solved_grid.
Proof.
  apply extends_all_cells. apply (bool_decide_unpack _). by vm_compute.
Qed.

Lemma four_rows_cleared_extends : extends four_rows_cleared solved_grid.
Proof.
  apply extends_all_cells. apply (bool_decide_unpack _). by vm_compute.
Qed.

(** ** Dead ends *)

(** C1. A dead end met by the scan is not reported as a failure.  On
    [dead_end_board] the first empty cell the scan meets, (0, 15), has no
    candidate, so no completion exists; [find_mrv_cell] returns [None], the
    value it also returns for a complete board, and [solve_sudoku] answers
    [true] and leaves the board as it was, without any assignment. *)
Theorem dead_end_reported_as_solved :
  well_formed dead_end_board ∧
  is_open dead_end_board (0, 15) ∅ ∧
  ¬ solvable dead_end_board ∧
  find_mrv_cell dead_end_board = Ok None ∧
  solve_sudoku (State dead_end_board 0) = Ok (true, State dead_end_board 1).
Proof.
  assert (well_formed dead_end_board) as Hwf
    by (apply (bool_decide_unpack _); by vm_compute).
  assert (is_open dead_end_board (0, 15) ∅) as Hopen
    by (split; by vm_compute).
  split_and!; [done|done| |by vm_compute..].
  destruct Hwf as [Hg _].
  apply (dead_end_unsolvable dead_end_board (0, 15)); [done| |done].
  split; simpl; unfold GRID_SIZE; lia.
Qed.

(** The consistency of a board, checked cell by cell. *)
Lemma consistent_all_cells (b : Board) :
  Forall (λ p, Forall (λ q, p ≠ q → same_group p q →
                            sym_at b p = sym_at b q →
                            sym_at b p = EMPTY_CELL) all_cells) all_cells →
  consistent b.
Proof.
  rewrite Forall_forall. intros H p q Hp%elem_of_all_cells Hq%elem_of_all_cells.
  specialize (H p Hp). rewrite Forall_forall in H. by apply H.
Qed.

(** C2. [true] is returned for a board that is no solution, on an input
    that keeps to the contract.  [dead_end_board] is well formed and its 16
    filled cells are mutually consistent; the scan meets the empty cell
    (0, 15), which has no candidate, and [solve_sudoku] answers [true] with
    the board as it was: 240 cells hold the sentinel and no row, column or
    block is complete. *)
Theorem true_returned_with_empty_cells :
  well_formed dead_end_board ∧
  consistent dead_end_board ∧
  solve_sudoku (State dead_end_board 0) = Ok (true, State dead_end_board 1) ∧
  count_empty dead_end_board = 240 ∧
  get_cell dead_end_board 0 15 = Ok EMPTY_CELL ∧
  ¬ valid_solution dead_end_board.
Proof.
  split_and!.
  - apply (bool_decide_unpack _). by vm_compute.
  - apply consistent_all_cells. apply (bool_decide_unpack _). by vm_compute.
  - by vm_compute.
  - by vm_compute.
  - by vm_compute.
  - apply (bool_decide_unpack _). by vm_compute.
Qed.

(** [solve_sudoku] does not check its input: on a complete board that breaks
    the rules it finds no empty cell and answers [true]. *)
Lemma all_zeros_accepted :
  well_formed all_zeros ∧
  solve_sudoku (State all_zeros 0) = Ok (true, State all_zeros 1) ∧
  ¬ valid_solution all_zeros.
Proof.
  split_and!.
  - apply (bool_decide_unpack _). by vm_compute.
  - by vm_compute.
  - apply (bool_decide_unpack _). by vm_compute.
Qed.

(** On a well-formed board whose filled cells are mutually consistent, when
    [solve_sudoku] returns [true] and no empty cell remains in the board it
    leaves, every cell of the grid holds one of the 16 symbols and every row,
    every column and every 4x4 block holds each of the 16 symbols exactly
    once. *)
Theorem solve_sudoku_valid (st st' : state) :
  well_formed (board st) → consistent (board st) →
  solve_sudoku st = Ok (true, st') → count_empty (board st') = 0 →
  (∀ p, in_grid p → sym_at (board st') p ∈ SYMBOLS_list) ∧
  valid_solution (board st').
Proof.
  intros Hwf Hcons Hsolve Hcount.
  destruct (solve_fuel_invariant _ _ _ _ Hsolve Hwf Hcons) as [Hwf' Hcons'].
  split.
  - intros p Hp. by apply complete_symbol.
  - by apply complete_consistent_valid.
Qed.

Lemma solve_sudoku_valid_witness :
  (∀ p, in_grid p → sym_at solved_grid p ∈ SYMBOLS_list) ∧
  valid_solution solved_grid.
Proof.
  apply (solve_sudoku_valid (State two_rows_cleared 0) (State solved_grid 33)).
  - apply (bool_decide_unpack _). vm_compute. reflexivity.
  - apply (extends_consistent two_rows_cleared solved_grid).
    + apply two_rows_cleared_extends.
    + apply solved_grid_valid.
  - vm_compute. reflexivity.
  - vm_compute. reflexivity.
Defined.

(** C3. A solvable board on which the search stops early.
    [four_rows_cleared] is well formed and has the completion [solved_grid];
    [solve_sudoku] fills 13 cells, the scan of its fourteenth call meets an
    empty cell without candidates, and the answer is [true] with 51 cells
    still empty. *)
Theorem solvable_board_left_incomplete :
  well_formed four_rows_cleared ∧
  solvable four_rows_cleared ∧
  solve_sudoku (State four_rows_cleared 0) =
    Ok (true, State four_rows_cleared_after 14) ∧
  count_empty four_rows_cleared_after = 51.
Proof.
  split_and!.
  - apply (bool_decide_unpack _). by vm_compute.
  - exists solved_grid. split_and!.
    + apply solved_grid_valid.
    + apply four_rows_cleared_extends.
    + apply solved_grid_valid.
  - by vm_compute.
  - by vm_compute.
Qed.

(** ** Backtracking *)

(** A loop that fails hands back the board it was given, when the recursive
    calls that fail do. *)
Lemma try_candidates_false_board (rec : state → result (bool * state))
    (row col : nat) (symbols : list string) (st st' : state) :
  (∀ st0 st1, rec st0 = Ok (false, st1) → board st1 = board st0) →
  get_cell (board st) row col = Ok EMPTY_CELL →
  try_candidates rec row col symbols st = Ok (false, st') →
  board st' = board st.
Proof.
  intros Hrec. revert st.
  induction symbols as [|s symbols IH]; intros st Hcell H.
  - simpl in H. by injection H as <-.
  - simpl in H. inv_bind H. rename x into b1.
    inv_bind H. destruct x as [[] st2]; [done|].
    inv_bind H. rename x into b3.
    apply Hrec in Hx0. simpl in Hx0. rewrite Hx0 in Hx1.
    pose proof (set_cell_reset _ _ _ _ _ _ Hcell Hx) as Hback.
    rewrite Hback in Hx1. injection Hx1 as <-.
    by apply IH in H.
Qed.

Lemma solve_sudoku_body_false_board (rec : state → result (bool * state))
    (st st' : state) :
  (∀ st0 st1, rec st0 = Ok (false, st1) → board st1 = board st0) →
  solve_sudoku_body rec st = Ok (false, st') →
  board st' = board st.
Proof.
  intros Hrec H. unfold solve_sudoku_body in H. cbn [board recursive_calls] in H.
  inv_bind H. destruct x as [[[row col] cands]|]; [|done].
  apply find_mrv_cell_Some in Hx as (_ & [Hcell _] & _). simpl in Hcell.
  by apply (try_candidates_false_board rec row col (sorted cands)
              (State (board st) (recursive_calls st + 1)) st' Hrec).
Qed.

Lemma solve_fuel_body (fuel : nat) (st : state) :
  solve_fuel (S fuel) st = solve_sudoku_body (solve_fuel fuel) st.
Proof. done. Qed.

(** By induction on the depth of the recursion, without any appeal to what
    the scan returns at a dead end. *)
Lemma solve_fuel_false_board (fuel : nat) (st st' : state) :
  solve_fuel fuel st = Ok (false, st') → board st' = board st.
Proof.
  revert st st'. induction fuel as [|fuel IH]; intros st st' H; [done|].
  rewrite solve_fuel_body in H.
  by apply (solve_sudoku_body_false_board (solve_fuel fuel)).
Qed.

(** C4. When [solve_sudoku] returns [false], the board is the one it was
    given: every assignment made by the loop was undone.  The same holds of
    one invocation, whatever the recursive call is, as long as the recursive
    calls that fail hand back the board they were given; [solve_sudoku]
    is that invocation applied to itself.  (In the solver as written no call
    returns [false], so the first statement has no instance; the second has,
    with a recursive call that fails.) *)
Theorem solve_sudoku_false_restores :
  (∀ st st',
     solve_sudoku st = Ok (false, st') → board st' = board st) ∧
  (∀ rec st st',
     (∀ st0 st1, rec st0 = Ok (false, st1) → board st1 = board st0) →
     solve_sudoku_body rec st = Ok (false, st') →
     board st' = board st) ∧
  (∀ fuel st,
     solve_fuel (S fuel) st = solve_sudoku_body (solve_fuel fuel) st).
Proof.
  split_and!.
  - intros st st'. apply solve_fuel_false_board.
  - apply solve_sudoku_body_false_board.
  - apply solve_fuel_body.
Qed.

Lemma solve_sudoku_false_restores_witness :
  board (State two_cells_one_symbol 1) = board (State two_cells_one_symbol 0).
Proof.
  destruct solve_sudoku_false_restores as (_ & Hbody & _).
  apply (Hbody (λ st, Ok (false, st)) (State two_cells_one_symbol 0)
           (State two_cells_one_symbol 1)).
  - intros st0 st1 [= ->]. reflexivity.
  - vm_compute. reflexivity.
Defined.

(** An unsolvable board on which [solve_sudoku] answers [true] and
    leaves an assignment in place.  In [two_cells_one_symbol] the two empty
    cells of row 0 both have E as only candidate.  The first call writes E
    into (0, 14); the scan of the second call finds (0, 15) without
    candidates; both calls return [true] and the E stays on the board. *)
Theorem unsolvable_board_reported_solved :
  well_formed two_cells_one_symbol ∧
  ¬ solvable two_cells_one_symbol ∧
  solve_sudoku (State two_cells_one_symbol 0) =
    Ok (true, State two_cells_one_symbol_after 2) ∧
  two_cells_one_symbol_after ≠ two_cells_one_symbol.
Proof.
  assert (well_formed two_cells_one_symbol) as Hwf
    by (apply (bool_decide_unpack _); by vm_compute).
  split_and!; [done| |by vm_compute|discriminate].
  intros (b' & Hwf' & Hext & Hvalid). destruct Hwf as [Hg _].
  assert (in_grid (0, 14) ∧ in_grid (0, 15)) as [H14 H15]
    by (unfold in_grid, GRID_SIZE; simpl; lia).
  assert (sym_at b' (0, 14) ∈ ({[ "E" ]} : gset string)) as HE14.
  { apply (solution_in_candidates two_cells_one_symbol);
      [done|done|done|done|split; by vm_compute]. }
  assert (sym_at b' (0, 15) ∈ ({[ "E" ]} : gset string)) as HE15.
  { apply (solution_in_candidates two_cells_one_symbol);
      [done|done|done|done|split; by vm_compute]. }
  apply elem_of_singleton in HE14, HE15.
  apply (valid_solution_distinct b' (0, 14) (0, 15)); try done.
  - by left.
  - congruence.
Qed.

(** * Further properties *)

(** ** The search *)

(** X1. [solve_sudoku] never answers [false]: whenever it returns, the flag
    is [true], on every board. *)
Theorem solve_sudoku_only_true (st st' : state) (ok : bool) :
  solve_sudoku st = Ok (ok, st') → ok = true.
Proof. apply solve_fuel_true. Qed.

Lemma solve_sudoku_only_true_witness : true = true.
Proof.
  apply (solve_sudoku_only_true (State two_cells_one_symbol 0)
           (State two_cells_one_symbol_after 2) true).
  vm_compute. reflexivity.
Defined.

Lemma solve_fuel_calls (fuel : nat) (st st' : state) (ok : bool) :
  solve_fuel fuel st = Ok (ok, st') →
  count_empty (board st') ≤ count_empty (board st) ∧
  recursive_calls st' + count_empty (board st') =
  recursive_calls st + 1 + count_empty (board st).
Proof.
  revert st st' ok. induction fuel as [|fuel IH]; intros st st' ok H; [done|].
  apply solve_fuel_step in H
    as [_ [[_ ->]|(row & col & cands & s & rest & b1 & Hmrv & Hs & Hset & Hrec)]];
    [done|].
  apply IH in Hrec as [Hle Hrec]. simpl in Hle, Hrec.
  apply find_mrv_cell_Some in Hmrv as (_ & [Hcell Hcands] & _).
  simpl in Hcell, Hcands.
  assert (s ≠ EMPTY_CELL) as Hne.
  { intros ->.
    assert (EMPTY_CELL ∈ cands) as Hin.
    { apply sorted_elem. rewrite Hs. apply elem_of_cons. by left. }
    apply (get_valid_candidates_subseteq _ _ _ _ Hcands) in Hin.
    by apply EMPTY_CELL_not_symbol. }
  rewrite (count_empty_set_cell _ _ _ _ _ Hcell Hne Hset). lia.
Qed.

(** X2. The counter of calls grows by one plus the number of cells the
    search filled: the search makes exactly one call per assignment and one
    more, and never comes back on an assignment. *)
Theorem solve_sudoku_calls (st st' : state) (ok : bool) :
  solve_sudoku st = Ok (ok, st') →
  count_empty (board st') ≤ count_empty (board st) ∧
  recursive_calls st' =
  recursive_calls st + 1 + (count_empty (board st) - count_empty (board st')).
Proof. intros H%solve_fuel_calls. lia. Qed.

Lemma solve_sudoku_calls_witness :
  count_empty two_cells_one_symbol_after ≤ count_empty two_cells_one_symbol ∧
  2 = 0 + 1 + (count_empty two_cells_one_symbol -
               count_empty two_cells_one_symbol_after).
Proof.
  apply (solve_sudoku_calls (State two_cells_one_symbol 0)
           (State two_cells_one_symbol_after 2) true).
  vm_compute. reflexivity.
Defined.

Lemma solve_fuel_final (fuel : nat) (st st' : state) (ok : bool) :
  solve_fuel fuel st = Ok (ok, st') → find_mrv_cell (board st') = Ok None.
Proof.
  revert st st' ok. induction fuel as [|fuel IH]; intros st st' ok H; [done|].
  apply solve_fuel_step in H
    as [_ [[Hnone ->]|(row & col & cands & s & rest & b1 & _ & _ & _ & Hrec)]];
    [done|].
  by apply IH in Hrec.
Qed.

(** X3. Running [solve_sudoku] on the board it left changes nothing: the
    second run returns [true] at once, with the same board and one more
    call counted. *)
Theorem solve_sudoku_again (st st' : state) (ok : bool) :
  solve_sudoku st = Ok (ok, st') →
  solve_sudoku st' = Ok (true, State (board st') (recursive_calls st' + 1)).
Proof. intros H%solve_fuel_final. by apply solve_sudoku_dead_end. Qed.

Lemma solve_sudoku_again_witness :
  solve_sudoku (State two_cells_one_symbol_after 2) =
  Ok (true, State two_cells_one_symbol_after 3).
Proof.
  apply (solve_sudoku_again (State two_cells_one_symbol 0)
           (State two_cells_one_symbol_after 2) true).
  vm_compute. reflexivity.
Defined.

Lemma size_zero_empty (X : gset string) : size X = 0 → X = ∅.
Proof. intros H. apply leibniz_equiv. by apply size_empty_inv. Qed.

Lemma no_empty_cell_count (b : Board) :
  grid_16x16 b →
  (∀ q, in_grid q → get_cell b q.1 q.2 ≠ Ok EMPTY_CELL) →
  count_empty b = 0.
Proof.
  intros [Hlen Hrows] Hnone. unfold count_empty.
  destruct (filter _ (concat b)) as [|x l] eqn:Hf; [done|]. exfalso.
  assert (x ∈ filter (λ v, v = EMPTY_CELL) (concat b)) as Hx.
  { rewrite Hf. apply elem_of_cons. by left. }
  apply list_elem_of_filter in Hx as [-> Hx].
  apply list_elem_of_In, in_concat in Hx as (rw & Hrw & Hx).
  apply list_elem_of_In, list_elem_of_lookup in Hrw as [i Hi].
  apply list_elem_of_In, list_elem_of_lookup in Hx as [j Hj].
  apply (Hnone (i, j)).
  - split; simpl.
    + rewrite <- Hlen. by eapply lookup_lt_Some.
    + rewrite <- (Forall_lookup_1 _ _ _ _ Hrows Hi). by eapply lookup_lt_Some.
  - apply get_cell_Ok. by exists rw.
Qed.

(** X4. On a well-formed board whose filled cells are consistent, what
    [solve_sudoku] leaves is either a solution or a board with an empty cell
    that has no candidate. *)
Theorem solve_sudoku_outcome (st st' : state) (ok : bool) :
  well_formed (board st) → consistent (board st) →
  solve_sudoku st = Ok (ok, st') →
  valid_solution (board st') ∨
  ∃ p, in_grid p ∧ is_open (board st') p ∅.
Proof.
  intros Hwf Hcons H.
  destruct (solve_fuel_invariant _ _ _ _ H Hwf Hcons) as [Hwf' Hcons'].
  apply solve_fuel_final, find_mrv_cell_None in H
    as [Hnone|(p & T & Hp & Hopen & HT & _)].
  - left. apply complete_consistent_valid; [done..|].
    destruct Hwf' as [Hg _]. by apply no_empty_cell_count.
  - right. exists p. split; [done|]. by rewrite <- (size_zero_empty T HT).
Qed.

Lemma solve_sudoku_outcome_witness :
  valid_solution solved_grid ∨ ∃ p, in_grid p ∧ is_open solved_grid p ∅.
Proof.
  apply (solve_sudoku_outcome (State two_rows_cleared 0)
           (State solved_grid 33) true).
  - apply (bool_decide_unpack _). vm_compute. reflexivity.
  - apply (extends_consistent two_rows_cleared solved_grid).
    + apply two_rows_cleared_extends.
    + apply solved_grid_valid.
  - vm_compute. reflexivity.
Defined.

Lemma solve_fuel_fills_only (fuel : nat) (st st' : state) (ok : bool)
    (r c : nat) (v : string) :
  solve_fuel fuel st = Ok (ok, st') →
  get_cell (board st) r c = Ok v →
  get_cell (board st') r c = Ok v ∨
  (v = EMPTY_CELL ∧ ∃ s, s ∈ SYMBOLS ∧ get_cell (board st') r c = Ok s).
Proof.
  revert st st' ok v.
  induction fuel as [|fuel IH]; intros st st' ok v H Hv; [done|].
  apply solve_fuel_step in H
    as [_ [[_ ->]|(row & col & cands & s & rest & b1 & Hmrv & Hs & Hset & Hrec)]];
    [by left|].
  apply find_mrv_cell_Some in Hmrv as (_ & [Hcell Hcands] & _).
  simpl in Hcell, Hcands.
  assert (s ∈ SYMBOLS) as Hsym.
  { apply (get_valid_candidates_subseteq _ _ _ _ Hcands), sorted_elem.
    rewrite Hs. apply elem_of_cons. by left. }
  destruct (decide ((r, c) = (row, col))) as [[= -> ->]|Hne].
  - right. rewrite Hcell in Hv. injection Hv as <-. split; [done|].
    exists s. split; [done|].
    apply (solve_fuel_frame _ _ _ _ _ _ _ Hrec).
    + simpl. by apply (get_set_cell_eq (board st)).
    + intros ->. by apply EMPTY_CELL_not_symbol.
  - apply (IH _ _ _ _ Hrec). simpl.
    by rewrite (get_set_cell_ne _ _ _ _ _ _ _ Hset Hne).
Qed.

(** X5. [solve_sudoku] only fills: a cell of the board it leaves holds what
    it held before, or it was empty and now holds a symbol of the alphabet.
    No cell is emptied and no value outside the alphabet is written. *)
Theorem solve_sudoku_fills_only (st st' : state) (ok : bool) (r c : nat)
    (v : string) :
  solve_sudoku st = Ok (ok, st') →
  get_cell (board st) r c = Ok v →
  get_cell (board st') r c = Ok v ∨
  (v = EMPTY_CELL ∧ ∃ s, s ∈ SYMBOLS ∧ get_cell (board st') r c = Ok s).
Proof. apply solve_fuel_fills_only. Qed.

Lemma solve_sudoku_fills_only_witness :
  get_cell two_cells_one_symbol_after 0 14 = Ok EMPTY_CELL ∨
  (EMPTY_CELL = EMPTY_CELL ∧
   ∃ s, s ∈ SYMBOLS ∧ get_cell two_cells_one_symbol_after 0 14 = Ok s).
Proof.
  apply (solve_sudoku_fills_only (State two_cells_one_symbol 0)
           (State two_cells_one_symbol_after 2) true 0 14 EMPTY_CELL).
  - vm_compute. reflexivity.
  - reflexivity.
Defined.

(** X6. The loop of [solve_sudoku] backtracks cleanly: started on an empty
    cell, with recursive calls that leave the board as they found it when
    they fail, a loop that ends in failure returns the board it started
    from. *)
Theorem try_candidates_restores (rec : state → result (bool * state))
    (row col : nat) (symbols : list string) (st st' : state) :
  (∀ st0 st1, rec st0 = Ok (false, st1) → board st1 = board st0) →
  get_cell (board st) row col = Ok EMPTY_CELL →
  try_candidates rec row col symbols st = Ok (false, st') →
  board st' = board st.
Proof.
  intros Hrec. revert st.
  induction symbols as [|s symbols IH]; intros st Hcell H.
  - simpl in H. by injection H as <-.
  - simpl in H. inv_bind H. rename x into b1.
    inv_bind H. destruct x as [[] st2]; [done|].
    inv_bind H. rename x into b3.
    apply Hrec in Hx0. simpl in Hx0. rewrite Hx0 in Hx1.
    pose proof (set_cell_reset _ _ _ _ _ _ Hcell Hx) as Hback.
    rewrite Hback in Hx1. injection Hx1 as <-.
    by apply IH in H.
Qed.

Lemma try_candidates_restores_witness :
  board (State two_cells_one_symbol 0) = board (State two_cells_one_symbol 0).
Proof.
  apply (try_candidates_restores (λ st, Ok (false, st)) 0 14 ["E"; "F"]
           (State two_cells_one_symbol 0) (State two_cells_one_symbol 0)).
  - intros st0 st1 [= ->]. reflexivity.
  - reflexivity.
  - vm_compute. reflexivity.
Defined.

(** ** The candidate engine *)

(** X7. The candidate engine loses no solution: the symbol that a solution
    extending the board puts into an empty cell is among the candidates of
    that cell.  An empty cell whose candidate set is empty therefore rules out
    every completion. *)
Theorem candidates_complete (b b' : Board) (row col : nat)
    (cands : gset string) :
  grid_16x16 b → extends b b' → valid_solution b' →
  in_grid (row, col) → is_open b (row, col) cands →
  sym_at b' (row, col) ∈ cands ∧ cands ≠ ∅.
Proof.
  intros Hg Hext Hvalid Hp Hopen.
  pose proof (solution_in_candidates b b' row col cands Hg Hext Hvalid Hp Hopen)
    as Hin.
  split; [done|]. intros ->. by apply not_elem_of_empty in Hin.
Qed.

Lemma candidates_complete_witness :
  sym_at solved_grid (6, 0) ∈ ({[ "6"; "7" ]} : gset string) ∧
  ({[ "6"; "7" ]} : gset string) ≠ ∅.
Proof.
  apply (candidates_complete two_rows_cleared solved_grid 6 0).
  - apply (bool_decide_unpack _). vm_compute. reflexivity.
  - apply two_rows_cleared_extends.
  - apply solved_grid_valid.
  - unfold in_grid, GRID_SIZE. simpl. lia.
  - split; vm_compute; reflexivity.
Defined.

(** X8. Assigning a candidate is safe: on a well-formed board whose filled
    cells are consistent, writing one of the candidates of a cell into that
    cell gives a well-formed board whose filled cells are consistent. *)
Theorem candidate_keeps_consistency (b b' : Board) (row col : nat)
    (cands : gset string) (s : string) :
  well_formed b → consistent b →
  get_valid_candidates b row col = Ok cands → s ∈ cands →
  set_cell b row col s = Ok b' →
  well_formed b' ∧ consistent b'.
Proof.
  intros Hwf Hcons Hcands Hs Hset. split.
  - apply (well_formed_set_cell b b' row col s Hwf); [|done]. left.
    apply elem_of_SYMBOLS. by apply (get_valid_candidates_subseteq _ _ _ _ Hcands).
  - destruct Hwf as [Hg _]. by eapply consistent_set_cell.
Qed.

Lemma candidate_keeps_consistency_witness :
  well_formed (<[6 := <[0 := "6"]> (row_of_string blank_row)]> two_rows_cleared) ∧
  consistent (<[6 := <[0 := "6"]> (row_of_string blank_row)]> two_rows_cleared).
Proof.
  apply (candidate_keeps_consistency two_rows_cleared _ 6 0 {[ "6"; "7" ]} "6").
  - apply (bool_decide_unpack _). vm_compute. reflexivity.
  - apply (extends_consistent two_rows_cleared solved_grid).
    + apply two_rows_cleared_extends.
    + apply solved_grid_valid.
  - vm_compute. reflexivity.
  - apply (bool_decide_unpack _). vm_compute. reflexivity.
  - vm_compute. reflexivity.
Defined.

(** The reads of a board after one of its empty cells was written, over any
    set [P] of positions. *)
Lemma reads_after_set_cell (P : nat → nat → Prop) (b b' : Board)
    (r' c' : nat) (v s : string) :
  get_cell b r' c' = Ok EMPTY_CELL → set_cell b r' c' v = Ok b' →
  s ≠ EMPTY_CELL →
  (∃ r c, P r c ∧ get_cell b' r c = Ok s) ↔
  (∃ r c, P r c ∧ get_cell b r c = Ok s) ∨ (P r' c' ∧ s = v).
Proof.
  intros Hcell Hset Hs. split.
  - intros (r & c & HP & Hrc).
    destruct (decide ((r, c) = (r', c'))) as [[= -> ->]|Hne].
    + right. rewrite (get_set_cell_eq _ _ _ _ _ Hset) in Hrc.
      split; [done|congruence].
    + left. rewrite (get_set_cell_ne _ _ _ _ _ _ _ Hset Hne) in Hrc.
      by exists r, c.
  - intros [(r & c & HP & Hrc)|[HP ->]].
    + exists r, c. split; [done|].
      rewrite (get_set_cell_ne _ _ _ _ _ _ _ Hset); [done|].
      intros [= -> ->]. congruence.
    + exists r', c'. split; [done|]. by apply (get_set_cell_eq b).
Qed.

(** X9. Filling an empty cell changes candidate sets in one way only: the
    symbol written leaves the candidates of the cells in the same row, column
    or block, and the candidates of every other cell stay as they were. *)
Theorem candidates_after_assignment (b b' : Board) (row col r' c' : nat)
    (v : string) (cands : gset string) :
  grid_16x16 b → in_grid (row, col) → in_grid (r', c') →
  get_cell b r' c' = Ok EMPTY_CELL → set_cell b r' c' v = Ok b' →
  get_valid_candidates b row col = Ok cands →
  get_valid_candidates b' row col =
  Ok (if decide (same_group (r', c') (row, col)) then cands ∖ {[ v ]}
      else cands).
Proof.
  intros Hg [Hrow Hcol] [Hr' Hc'] Hcell Hset Hcands. cbn [fst snd] in *.
  destruct (get_valid_candidates_Ok b' row col) as [cands' Hcands'];
    [by eapply set_cell_grid|done..|].
  rewrite Hcands'. f_equal. apply set_eq. intros s.
  rewrite (get_valid_candidates_elem _ _ _ _ Hcands').
  assert (s ∈ (if decide (same_group (r', c') (row, col))
               then cands ∖ {[ v ]} else cands)
          ↔ s ∈ cands ∧ ¬ (same_group (r', c') (row, col) ∧ s = v)) as ->.
  { case_decide; [rewrite elem_of_difference, elem_of_singleton|]; tauto. }
  rewrite (get_valid_candidates_elem _ _ _ _ Hcands).
  destruct (decide (s ∈ SYMBOLS)) as [Hsym|]; [|tauto].
  assert (s ≠ EMPTY_CELL) as Hs.
  { intros ->. by apply EMPTY_CELL_not_symbol. }
  assert (in_row b' row s ↔ in_row b row s ∨ (r' = row ∧ s = v)) as ->.
  { unfold in_row.
    pose proof (reads_after_set_cell (λ r _, r = row) b b' r' c' v s
                  Hcell Hset Hs) as H.
    split.
    - intros [c Hc]. destruct H as [[(r & c0 & -> & ?)|?] _]; [by exists row, c| |].
      + left. by exists c0.
      + by right.
    - intros Hor. destruct H as [_ (r & c & -> & ?)].
      + destruct Hor as [[c ?]|?]; [left; by exists row, c|by right].
      + by exists c. }
  assert (in_col b' col s ↔ in_col b col s ∨ (c' = col ∧ s = v)) as ->.
  { unfold in_col.
    pose proof (reads_after_set_cell (λ r c, r < GRID_SIZE ∧ c = col)
                  b b' r' c' v s Hcell Hset Hs) as H.
    split.
    - intros (r & Hr & Hrc).
      destruct H as [[(r0 & c0 & [? ->] & ?)|[[_ ?] ?]] _];
        [by exists r, col| |].
      + left. by exists r0.
      + by right.
    - intros Hor. destruct H as [_ (r & c & [? ->] & ?)].
      + destruct Hor as [(r & ? & ?)|[? ?]]; [left; by exists r, col|by right].
      + by exists r. }
  assert (in_block b' row col s ↔
          in_block b row col s ∨
          ((row / 4 * 4 ≤ r' < row / 4 * 4 + 4 ∧
            col / 4 * 4 ≤ c' < col / 4 * 4 + 4) ∧ s = v)) as ->.
  { unfold in_block.
    pose proof (reads_after_set_cell
                  (λ r c, row / 4 * 4 ≤ r < row / 4 * 4 + 4 ∧
                          col / 4 * 4 ≤ c < col / 4 * 4 + 4)
                  b b' r' c' v s Hcell Hset Hs) as H.
    split.
    - intros (r & c & Hr & Hc & Hrc).
      destruct H as [[(r0 & c0 & [? ?] & ?)|?] _]; [by exists r, c| |by right].
      left. by exists r0, c0.
    - intros Hor. destruct H as [_ (r & c & [? ?] & ?)].
      + destruct Hor as [(r & c & ? & ? & ?)|?]; [left; by exists r, c|by right].
      + by exists r, c. }
  unfold same_group. cbn [fst snd].
  rewrite <- !same_block_range.
  split.
  - intros (_ & H1 & H2 & H3). split; [tauto|].
    intros [[?|[?|[? ?]]] ?]; [tauto|tauto|].
    apply H3. right. split; [split|]; congruence.
  - intros [(_ & H1 & H2 & H3) Hnot]. split_and!; [done| | |].
    + intros [?|[? ?]]; [done|]. apply Hnot. split; [by left|done].
    + intros [?|[? ?]]; [done|]. apply Hnot. split; [by right; left|done].
    + intros [?|[[? ?] ?]]; [done|]. apply Hnot.
      split; [right; right; split; congruence|done].
Qed.

Lemma candidates_after_assignment_witness :
  get_valid_candidates
    (<[6 := <[0 := "6"]> (row_of_string blank_row)]> two_rows_cleared) 6 1 =
  Ok (if decide (same_group (6, 0) (6, 1))
      then ({[ "4"; "C" ]} : gset string) ∖ {[ "6" ]} else {[ "4"; "C" ]}).
Proof.
  apply (candidates_after_assignment two_rows_cleared _ 6 1 6 0 "6").
  - apply (bool_decide_unpack _). vm_compute. reflexivity.
  - unfold in_grid, GRID_SIZE. simpl. lia.
  - unfold in_grid, GRID_SIZE. simpl. lia.
  - vm_compute. reflexivity.
  - vm_compute. reflexivity.
  - vm_compute. reflexivity.
Defined.

(** ** Boards of the wrong shape *)

Lemma for_each_add_reads (f : nat → result string) (xs : list nat)
    (used used' : gset string) :
  for_each xs (λ x used, v ← f x; Ok (used ∪ {[ v ]})) used = Ok used' →
  ∀ x, x ∈ xs → ∃ v, f x = Ok v.
Proof.
  revert used. induction xs as [|x xs IH]; intros used H y Hy.
  - by apply elem_of_nil in Hy.
  - simpl in H. inv_bind H. inv_bind Hx.
    apply elem_of_cons in Hy as [->|Hy]; [by eexists|by eapply IH].
Qed.

Lemma for_each_block_reads (b : Board) (rows cols : list nat)
    (used used' : gset string) :
  for_each rows
    (λ r used,
       for_each cols (λ c used, v ← get_cell b r c; Ok (used ∪ {[ v ]})) used)
    used = Ok used' →
  ∀ r c, r ∈ rows → c ∈ cols → readable b r c.
Proof.
  revert used. induction rows as [|r rows IH]; intros used H r' c Hr' Hc.
  - by apply elem_of_nil in Hr'.
  - simpl in H. inv_bind H.
    apply elem_of_cons in Hr' as [->|Hr']; [|by eapply IH].
    by apply (for_each_add_reads (get_cell b r) _ _ _ Hx).
Qed.

(** X10. [get_valid_candidates] raises [IndexError] exactly when one of its
    reads is out of range: the row [row], the cells of rows 0 to 15 in column
    [col], and the 16 cells of the block around the cell.  Otherwise it
    returns a set. *)
Theorem get_valid_candidates_IndexError (b : Board) (row col : nat) :
  (get_valid_candidates b row col = IndexError ↔ ¬ reads_in_range b row col) ∧
  ((∃ cands, get_valid_candidates b row col = Ok cands) ↔
   reads_in_range b row col).
Proof.
  assert ((∃ cands, get_valid_candidates b row col = Ok cands) ↔
          reads_in_range b row col) as Hiff.
  { split.
    - intros [cands H]. unfold get_valid_candidates in H.
      inv_bind H. rename x into rw. apply get_row_Ok in Hx.
      inv_bind H. inv_bind H. split_and!.
      + by eapply lookup_lt_Some.
      + intros r Hr.
        apply (for_each_add_reads (λ r, get_cell b r col) _ _ _ Hx0).
        apply elem_of_range. lia.
      + intros r c Hr Hc.
        apply (for_each_block_reads _ _ _ _ _ Hx1); by apply elem_of_range.
    - intros (Hrow & Hcol & Hblock). unfold get_valid_candidates.
      destruct (lookup_lt_is_Some_2 b row Hrow) as [rw Hrw].
      apply get_row_Ok in Hrw. rewrite Hrw, Ok_bind.
      destruct (for_each_add_Ok (λ r, get_cell b r col) (range 0 GRID_SIZE)
                  (∅ ∪ list_to_set rw)) as [u1 Hu1].
      { intros r Hr%elem_of_range. apply Hcol. lia. }
      rewrite Hu1, Ok_bind.
      destruct (for_each_block_Ok b
                  (range (row / SUBGRID_SIZE * SUBGRID_SIZE) SUBGRID_SIZE)
                  (range (col / SUBGRID_SIZE * SUBGRID_SIZE) SUBGRID_SIZE) u1)
        as [u2 Hu2].
      { intros r c Hr%elem_of_range Hc%elem_of_range. by apply Hblock. }
      rewrite Hu2, Ok_bind. by eexists. }
  split; [|done]. rewrite <- Hiff.
  pose proof (get_valid_candidates_fuel b row col) as Hfuel.
  destruct (get_valid_candidates b row col) as [cands| |].
  - split; [done|]. intros H. exfalso. apply H. by eexists.
  - split; [|done]. by intros _ [c0 H].
  - done.
Qed.

Lemma get_valid_candidates_IndexError_witness :
  get_valid_candidates [] 0 0 = IndexError.
Proof.
  apply (get_valid_candidates_IndexError [] 0 0).
  intros (H & _). simpl in H. lia.
Defined.

Lemma scan_list_reads (b : Board) (cells : list Position)
    (st st' : ScanState) :
  scan_list b cells st = Ok (Continue st') →
  ∀ p, p ∈ cells → readable b p.1 p.2.
Proof.
  revert st. induction cells as [|q cells IH]; intros st H p Hp.
  - by apply elem_of_nil in Hp.
  - simpl in H. inv_bind H. destruct x as [x|st1]; [done|].
    apply elem_of_cons in Hp as [->|Hp]; [|by eapply IH].
    unfold scan_cell in Hx. inv_bind Hx. by eexists.
Qed.

(** X11. A board with fewer than 16 rows is never solved and never
    reported unsolvable: [find_mrv_cell] and [solve_sudoku] raise
    [IndexError] on it, whatever its cells hold. *)
Theorem too_few_rows_IndexError (b : Board) :
  length b < GRID_SIZE →
  find_mrv_cell b = IndexError ∧
  ∀ calls, solve_sudoku (State b calls) = IndexError.
Proof.
  intros Hlen.
  assert (∀ r c, readable b r c → r < length b) as Hread.
  { intros r c [v (rw & Hrw & _)%get_cell_Ok]. by eapply lookup_lt_Some. }
  assert (∀ p T, ¬ is_open b p T) as Hopen.
  { intros p T [_ Hcands].
    assert (reads_in_range b p.1 p.2) as (_ & Hcol & _).
    { apply get_valid_candidates_IndexError. by eexists. }
    specialize (Hread 15 p.2 (Hcol 15 ltac:(unfold GRID_SIZE; lia))).
    unfold GRID_SIZE in Hlen. lia. }
  assert (find_mrv_cell b = IndexError) as Hmrv.
  { pose proof (find_mrv_cell_fuel b) as Hfuel.
    destruct (find_mrv_cell b) as [x| |] eqn:H; [exfalso|done..].
    rewrite find_mrv_cell_scan_list in H. inv_bind H.
    destruct x0 as [y|st'].
    - apply (scan_list_post b all_cells [] (None, None)) in Hx;
        [|apply scan_inv_nil].
      destruct y as [[[r c] C]|]; simpl in Hx.
      + destruct Hx as (_ & _ & _ & Ho & _). by apply Hopen in Ho.
      + destruct Hx as (_ & p & _ & T & _ & Ho & _). by apply Hopen in Ho.
    - assert (readable b 15 0) as H15.
      { apply (scan_list_reads _ _ _ _ Hx (15, 0)), elem_of_all_cells.
        unfold in_grid, GRID_SIZE. simpl. lia. }
      apply Hread in H15. unfold GRID_SIZE in Hlen. lia. }
  split; [done|]. intros calls. unfold solve_sudoku.
  cbn [solve_fuel board recursive_calls]. by rewrite Hmrv.
Qed.

Lemma too_few_rows_IndexError_witness :
  find_mrv_cell [] = IndexError ∧
  ∀ calls, solve_sudoku (State [] calls) = IndexError.
Proof.
  apply (too_few_rows_IndexError []). unfold GRID_SIZE. simpl. lia.
Defined.

(** ** The scan *)

(** X12. On a 16x16 board [find_mrv_cell] returns [None] in exactly two
    situations: no cell is empty, or some empty cell has no candidate while
    every empty cell before it in row-major order has at least two. *)
Theorem find_mrv_cell_None_iff (b : Board) :
  grid_16x16 b →
  (find_mrv_cell b = Ok None ↔
   (∀ q, in_grid q → get_cell b q.1 q.2 ≠ Ok EMPTY_CELL) ∨
   (∃ p, in_grid p ∧ is_open b p ∅ ∧
      ∀ q T, in_grid q → before q p → is_open b q T → 2 ≤ size T)).
Proof.
  intros Hg. split.
  - intros [Hnone|(p & T & Hp & Hopen & HT & Hbefore)]%find_mrv_cell_None;
      [by left|right].
    exists p. split_and!; [done| |done]. by rewrite <- (size_zero_empty T HT).
  - intros [Hnone|(p & Hp & Hopen & Hbefore)].
    + destruct (find_mrv_cell_Ok b Hg) as [[[[r c] C]|] H]; [|done].
      apply find_mrv_cell_Some in H as (Hp & [Hcell _] & _).
      by apply Hnone in Hp.
    + by apply (find_mrv_cell_dead_end b p).
Qed.

Lemma find_mrv_cell_None_iff_witness :
  find_mrv_cell dead_end_board = Ok None ↔
  (∀ q, in_grid q → get_cell dead_end_board q.1 q.2 ≠ Ok EMPTY_CELL) ∨
  (∃ p, in_grid p ∧ is_open dead_end_board p ∅ ∧
     ∀ q T, in_grid q → before q p → is_open dead_end_board q T →
            2 ≤ size T).
Proof.
  apply (find_mrv_cell_None_iff dead_end_board).
  apply (bool_decide_unpack _). vm_compute. reflexivity.
Defined.

(** ** Printing *)

Lemma append_cons (x : ascii) (a b : string) :
  String x a +:+ b = String x (a +:+ b).
Proof. done. Qed.

Lemma append_nil (b : string) : "" +:+ b = b.
Proof. done. Qed.

Lemma append_assoc (a b c : string) : (a +:+ b) +:+ c = a +:+ (b +:+ c).
Proof.
  induction a as [|x a IH]; [done|]. by rewrite !append_cons, IH.
Qed.

Lemma lines_cons (c : ascii) (s : string) :
  c ≠ "010"%char →
  lines (String c s) =
  match lines s with
  | l :: ls => String c l :: ls
  | [] => [String c ""]
  end.
Proof. intros Hc. cbn [lines]. by rewrite decide_False. Qed.

Lemma lines_newline (s : string) : lines (newline +:+ s) = "" :: lines s.
Proof. done. Qed.

Lemma lines_app (l rest : string) :
  no_newline l → lines (l +:+ newline +:+ rest) = l :: lines rest.
Proof.
  induction l as [|c l IH]; intros Hl; [done|].
  destruct Hl as [Hc Hl]. by rewrite append_cons, lines_cons, IH.
Qed.

(** A symbol or the sentinel is a single character, which is no blank, bar,
    dash or line break. *)
Lemma plain_cell_char (v : string) :
  v ∈ SYMBOLS_list ∨ v = EMPTY_CELL →
  ∃ c, v = String c "" ∧ c ≠ "010"%char ∧ c ≠ " "%char ∧ c ≠ "|"%char ∧
       c ≠ "-"%char.
Proof.
  intros [Hv| ->]; [|by eexists].
  unfold SYMBOLS_list in Hv.
  repeat (apply elem_of_cons in Hv as [->|Hv]; [by eexists|]).
  by apply elem_of_nil in Hv.
Qed.

Lemma print_values_cons (n : nat) (c : ascii) (row : list string) :
  print_values n (String c "" :: row) =
  (if decide (n mod SUBGRID_SIZE = 0 ∧ n ≠ 0) then "| " else "")
  +:+ String c (String " " (print_values (S n) row)).
Proof. done. Qed.

Lemma no_newline_print_values (n : nat) (row : list string) :
  Forall (λ v, v ∈ SYMBOLS_list ∨ v = EMPTY_CELL) row →
  no_newline (print_values n row).
Proof.
  intros Hrow. revert n.
  induction Hrow as [|v row (c & -> & Hc & _)%plain_cell_char _ IH];
    intros n; [done|].
  rewrite print_values_cons.
  case_decide; rewrite ?append_cons, ?append_nil; cbn [no_newline]; auto.
Qed.

Lemma cells_of_line_print_values (n : nat) (row : list string) :
  Forall (λ v, v ∈ SYMBOLS_list ∨ v = EMPTY_CELL) row →
  cells_of_line (print_values n row) = row.
Proof.
  intros Hrow. revert n.
  induction Hrow
    as [|v row (c & -> & _ & Hblank & Hbar & _)%plain_cell_char _ IH];
    intros n; [done|].
  rewrite print_values_cons.
  assert (cells_of_line (String c (String " " (print_values (S n) row))) =
          String c "" :: row) as Hcells.
  { cbn [cells_of_line]. rewrite decide_False by (intros [?|?]; done).
    rewrite decide_True by (by left). by rewrite IH. }
  case_decide; [|by rewrite append_nil].
  rewrite !append_cons, append_nil. cbn [cells_of_line].
  rewrite decide_True by (by right). rewrite decide_True by (by left). done.
Qed.

(** A printed row is kept when the text is read back. *)
Lemma print_values_kept (row : list string) :
  row ≠ [] → Forall (λ v, v ∈ SYMBOLS_list ∨ v = EMPTY_CELL) row →
  print_values 0 row ≠ "" ∧ is_rule (print_values 0 row) = false.
Proof.
  intros Hne Hrow.
  destruct Hrow as [|v row (c & -> & _ & _ & _ & Hdash)%plain_cell_char _];
    [done|].
  rewrite print_values_cons. rewrite decide_False by (intros [_ ?]; done).
  rewrite append_nil. split; [done|]. cbn [is_rule].
  by apply bool_decide_eq_false.
Qed.

Lemma rule_no_newline : no_newline (repeat_string "-" 41).
Proof. cbn. repeat split; done. Qed.

Lemma lines_print_rows (i : nat) (b : Board) (rest : string) :
  plain_board b →
  filter (λ l, l ≠ "" ∧ is_rule l = false) (lines (print_rows i b +:+ rest)) =
  (print_values 0 <$> b) ++
  filter (λ l, l ≠ "" ∧ is_rule l = false) (lines rest).
Proof.
  intros Hb. revert i.
  induction Hb as [|row b [Hne Hrow] _ IH]; intros i; [done|].
  cbn [print_rows]. rewrite !append_assoc.
  assert (filter (λ l, l ≠ "" ∧ is_rule l = false)
            (lines (print_values 0 row +:+ newline +:+
                    print_rows (S i) b +:+ rest)) =
          print_values 0 row ::
          ((print_values 0 <$> b) ++
           filter (λ l, l ≠ "" ∧ is_rule l = false) (lines rest))) as Hrest.
  { rewrite lines_app by (by apply no_newline_print_values).
    rewrite filter_cons_True by (by apply print_values_kept).
    by rewrite IH. }
  case_decide.
  - rewrite !append_assoc, lines_app by apply rule_no_newline.
    rewrite filter_cons_False by (intros [_ ?]; done).
    by rewrite Hrest.
  - by rewrite append_nil, Hrest.
Qed.

(** X13. The text written by [print_board] shows the whole board: on a
    board without empty row whose cells are symbols or the sentinel, dropping
    the blank lines and the lines of dashes, and then the blanks and bars of
    each remaining line, gives back the board, cell by cell. *)
Theorem print_board_read_board (b : Board) :
  plain_board b → read_board (print_board b) = b.
Proof.
  intros Hb. unfold read_board, print_board.
  rewrite (lines_print_rows 0 b newline Hb).
  cbn [lines newline filter]. rewrite app_nil_r.
  rewrite <- list_fmap_compose.
  induction Hb as [|row b [_ Hrow] _ IH]; [done|].
  cbn [fmap list_fmap compose]. f_equal; [|done].
  by apply cells_of_line_print_values.
Qed.

Lemma print_board_read_board_witness :
  read_board (print_board solved_grid) = solved_grid.
Proof.
  apply (print_board_read_board solved_grid).
  apply (bool_decide_unpack _). vm_compute. reflexivity.
Defined.

(** ** Solvable boards *)

(** X14. A forced move keeps the board solvable: when an empty cell of a
    solvable 16x16 board has exactly one candidate, writing that candidate
    into the cell gives a board that the same solutions complete. *)
Theorem forced_assignment_keeps_solvable (b b1 : Board) (row col : nat)
    (cands : gset string) (s : string) :
  grid_16x16 b → solvable b → in_grid (row, col) →
  is_open b (row, col) cands → size cands = 1 → s ∈ cands →
  set_cell b row col s = Ok b1 →
  solvable b1.
Proof.
  intros Hg (b' & Hwf' & Hext & Hvalid) Hp Hopen Hsz Hs Hset.
  exists b'. split_and!; [done| |done].
  pose proof (solution_in_candidates b b' row col cands Hg Hext Hvalid Hp Hopen)
    as Hin.
  apply size_1_elem_of in Hsz as [x Hx].
  apply leibniz_equiv in Hx. subst cands.
  apply elem_of_singleton in Hs, Hin. subst x.
  intros p Hpg. rewrite (sym_at_set_cell _ _ _ _ _ p Hset).
  case_decide as Hpeq; [by subst p|]. by apply Hext.
Qed.

Lemma forced_assignment_keeps_solvable_witness :
  solvable
    (<[7 := <[0 := "7"]> (row_of_string blank_row)]>
       (<[6 := <[0 := "6"]> (row_of_string blank_row)]> two_rows_cleared)).
Proof.
  apply (forced_assignment_keeps_solvable
           (<[6 := <[0 := "6"]> (row_of_string blank_row)]> two_rows_cleared)
           _ 7 0 {[ "7" ]} "7").
  - apply (bool_decide_unpack _). vm_compute. reflexivity.
  - exists solved_grid. split_and!.
    + apply solved_grid_valid.
    + apply extends_all_cells. apply (bool_decide_unpack _).
      vm_compute. reflexivity.
    + apply solved_grid_valid.
  - unfold in_grid, GRID_SIZE. simpl. lia.
  - split; vm_compute; reflexivity.
  - vm_compute. reflexivity.
  - apply (bool_decide_unpack _). vm_compute. reflexivity.
  - vm_compute. reflexivity.
Defined.

(** X15. [solve_sudoku] keeps the board in shape: started on a well-formed
    board whose filled cells are consistent, it leaves a well-formed board
    whose filled cells are consistent, whatever it answers. *)
Theorem solve_sudoku_keeps_consistency (st st' : state) (ok : bool) :
  well_formed (board st) → consistent (board st) →
  solve_sudoku st = Ok (ok, st') →
  well_formed (board st') ∧ consistent (board st').
Proof. intros Hwf Hcons H. by apply (solve_fuel_invariant _ _ _ _ H). Qed.

Lemma solve_sudoku_keeps_consistency_witness :
  well_formed four_rows_cleared_after ∧ consistent four_rows_cleared_after.
Proof.
  apply (solve_sudoku_keeps_consistency (State four_rows_cleared 0)
           (State four_rows_cleared_after 14) true).
  - apply (bool_decide_unpack _). vm_compute. reflexivity.
  - apply (extends_consistent four_rows_cleared solved_grid).
    + apply four_rows_cleared_extends.
    + apply solved_grid_valid.
  - vm_compute. reflexivity.
Defined.

(** X16. Whenever the scan selects no cell, [solve_sudoku] returns [true]
    with the board untouched and one call counted.  On a 16x16 board this
    happens when no cell is empty, whether or not the board obeys the rules,
    and when an empty cell has no candidate while every empty cell before it
    has at least two. *)
Theorem solve_sudoku_nothing_to_do (b : Board) (calls : nat) :
  grid_16x16 b →
  count_empty b = 0 ∨
  (∃ p, in_grid p ∧ is_open b p ∅ ∧
     ∀ q T, in_grid q → before q p → is_open b q T → 2 ≤ size T) →
  solve_sudoku (State b calls) = Ok (true, State b (calls + 1)).
Proof.
  intros Hg Hcases.
  apply (solve_sudoku_dead_end (State b calls)). simpl.
  destruct Hcases as [Hcount|(p & Hp & Hopen & Hbefore)].
  - destruct (find_mrv_cell_Ok b Hg) as [[[[r c] C]|] H]; [|done].
    apply find_mrv_cell_Some in H as (_ & [(rw & Hrw & Hv)%get_cell_Ok _] & _).
    exfalso. unfold count_empty in Hcount. apply nil_length_inv in Hcount.
    apply (filter_nil_not_elem_of _ _ EMPTY_CELL Hcount); [done|].
    apply list_elem_of_In, in_concat. exists rw.
    split; apply list_elem_of_In; by eapply list_elem_of_lookup_2.
  - by apply (find_mrv_cell_dead_end b p).
Qed.

Lemma solve_sudoku_nothing_to_do_witness :
  solve_sudoku (State all_zeros 0) = Ok (true, State all_zeros (0 + 1)).
Proof.
  apply (solve_sudoku_nothing_to_do all_zeros 0).
  - apply (bool_decide_unpack _). vm_compute. reflexivity.
  - left. vm_compute. reflexivity.
Defined.
